(** * Batch GCD over a product tree kept on disk

    A shallow embedding of [utils.cpp] (level store, product tree, the two
    remainder passes) and of the entry point [main], with the properties the
    specification states about them.

    Conventions of the embedding.
    - [mpz_class] values are [Z]; [*], [%], [/] and [gcd] on them are GMP's:
      [Z.mul], the truncating [Z.rem] and [Z.quot], and [Z.gcd].  GMP raises a
      division-by-zero fault for a zero divisor.
    - [std::vector] is [list]; sizes, loop counters and level numbers are
      [nat]: the 32-bit counters of the source do not wrap on vectors of fewer
      than 2^32 elements, which is assumed.  A vector access whose index is
      bounded by the guard of its own loop over the same vector is a total
      lookup; every other access is checked and faults when out of range
      (undefined behaviour in C++).
    - The directory [data/product_tree] is a finite map from (level, index) to
      the bytes of [level<l>/<i>.gmp]; it is assumed writable.
    - A function that mutates its argument returns the new value; functions
      that touch the disk or the manifest [filesPerFloor] thread a [world].
    - Console output is not modelled, except for the vector accesses it
      makes. *)

From Stdlib Require Import ZArith Lia.
From Stdlib.Strings Require Import Byte.
From Stdlib.Strings Require Import Ascii.
From stdpp Require Import gmap list.
From Equations Require Import Equations.

(** ** Faults and fallible computations *)

(** The ways a run can stop without a result.  Only the last is raised by the
    code under study; the others are what the platform does. *)
Inductive fault : Type :=
| DivisionByZero   (* GMP: [%] or [/] with a zero divisor *)
| NullStream       (* [fclose] on the null stream of a failed [fopen] *)
| OutOfRange       (* [operator[]] past the end of a vector *)
| Incomplete.      (* the [std::exception] thrown by the sanity check *)

Inductive outcome (A : Type) : Type :=
| Ok (a : A)
| Fault (f : fault).
Arguments Ok {A} a.
Arguments Fault {A} f.

#[global] Instance outcome_ret : MRet outcome := fun A a => Ok a.

#[global] Instance outcome_bind : MBind outcome := fun A B k m =>
  match m with
  | Ok a => k a
  | Fault f => Fault f
  end.

(** [for (unsigned int i = 0; i < n; i++) body], for a bound [n] that the body
    does not change: the body runs for i = 0, 1, ..., n-1 in this order. *)
Fixpoint for_upto {S : Type} (n : nat) (body : nat -> S -> outcome S) (s : S)
  : outcome S :=
  match n with
  | O => Ok s
  | S n' => s' ← for_upto n' body s; body n' s'
  end.

(** [v[i]] where nothing bounds [i] by [v.size()]. *)
Definition at_index {A : Type} (v : list A) (i : nat) : outcome A :=
  match v !! i with
  | Some x => Ok x
  | None => Fault OutOfRange
  end.

(** GMP's [operator%] ([mpz_tdiv_r]) and [operator/] ([mpz_tdiv_q]). *)
Definition mpz_rem (a b : Z) : outcome Z :=
  if decide (b = 0%Z) then Fault DivisionByZero else Ok (Z.rem a b).

Definition mpz_quot (a b : Z) : outcome Z :=
  if decide (b = 0%Z) then Fault DivisionByZero else Ok (Z.quot a b).

(** [for] loops with a fixed bound whose body cannot fault. *)
Fixpoint loop_upto {S : Type} (n : nat) (body : nat -> S -> S) (s : S) : S :=
  match n with
  | O => s
  | S n' => body n' (loop_upto n' body s)
  end.

(** ** The raw serialisation of the big-integer library

    [mpz_out_raw] and [mpz_inp_raw] belong to GMP, not to this repository, and
    are taken as a parameter.  [mpz_out_raw z] is the bytes written for [z].
    [mpz_inp_raw old bs] is the pair of the destination's content after the
    call and of the call's return value (bytes read, 0 on error), for a
    destination that held [old] and a file that holds [bs]. *)
Class RawIO : Type := {
  mpz_out_raw : Z -> list byte;
  mpz_inp_raw : Z -> list byte -> Z * nat
}.

(** The contract the level store relies on: reading back what was written
    gives the integer written, whatever the destination held before. *)
Definition raw_round_trip (io : RawIO) : Prop :=
  forall old z, fst (mpz_inp_raw old (mpz_out_raw z)) = z.

(** ** A concrete raw format

    GMP's own format is not part of the sources; the runs on concrete inputs
    below use the following one. *)

Module SignMagnitude.

Definition byte_of_N (n : N) : byte := default x00 (Byte.of_N n).

(** The base-256 digits of [n], least significant first; [fuel] bounds their
    number. *)
Fixpoint le_bytes (fuel : nat) (n : N) : list byte :=
  match fuel with
  | O => []
  | S fuel' =>
      if N.eqb n 0 then []
      else byte_of_N (n mod 256) :: le_bytes fuel' (n / 256)
  end.

Definition magnitude (n : N) : list byte :=
  rev (le_bytes (N.to_nat (N.size n)) n).

Definition of_magnitude (bs : list byte) : N :=
  fold_left (fun acc b => (256 * acc + Byte.to_N b)%N) bs 0%N.

(** Modelled from the spec: the external BigInt primitive's raw serialization,
    a "portable byte form including sign and magnitude".  One sign byte (x00
    for a non-negative integer, x01 for a negative one) followed by the bytes
    of the magnitude, most significant first. *)
Definition out_raw (z : Z) : list byte :=
  (if decide (z < 0)%Z then x01 else x00) :: magnitude (Z.abs_N z).

(** Modelled from the spec: the reader of the raw serialization.  A file that
    does not start with a sign byte (the empty file among them) is a
    "truncated raw record": the reader returns 0 and leaves its destination as
    it was, as GMP's reader does when the head of the record is missing. *)
Definition inp_raw (old : Z) (bs : list byte) : Z * nat :=
  match bs with
  | x00 :: m => (Z.of_N (of_magnitude m), length bs)
  | x01 :: m => ((- Z.of_N (of_magnitude m))%Z, length bs)
  | _ => (old, O)
  end.

End SignMagnitude.

Definition sign_magnitude_io : RawIO := {|
  mpz_out_raw := SignMagnitude.out_raw;
  mpz_inp_raw := SignMagnitude.inp_raw
|}.

(** ** The program state *)

(** [disk] is the content of [data/product_tree]: the file
    [level<l>/<i>.gmp] is the entry at [(l, i)].  [filesPerFloor] is the
    global vector of [utils.cpp]. *)
Record world : Type := World {
  disk : gmap (nat * nat) (list byte);
  filesPerFloor : list nat
}.

(** The state a process starts in: the global vector is empty, the directory
    holds whatever earlier runs left there. *)
Definition initial_world (d : gmap (nat * nat) (list byte)) : world :=
  World d [].

Section Program.
Context {io : RawIO}.

(** ** The level store *)

(** [fopen(.., "w+")] creates the file or empties it; the record of [X[i]]
    becomes its whole content. *)
Definition write_level_to_file (l : nat) (X : list Z) (w : world) : world :=
  World
    (loop_upto (length X)
       (fun i d => <[(l, i) := mpz_out_raw (X !!! i)]> d) (disk w))
    (filesPerFloor w).

(** [y] is initialised to 0; the return value of [mpz_inp_raw] is dropped, so
    [x] is whatever the call left in [y].  A missing file gives a null stream,
    on which [fclose] faults. *)
Definition read_variable_from_file (level index : nat) (w : world) : outcome Z :=
  match disk w !! (level, index) with
  | None => Fault NullStream
  | Some bs => Ok (fst (mpz_inp_raw 0%Z bs))
  end.

(** The body of the loop of [read_level_from_file]: the buffer [mod], second
    component of the state, is initialised once and reused for every file; each
    iteration pushes a copy of what it holds after the read. *)
Definition read_one (l : nat) (w : world) (i : nat) (st : list Z * Z)
  : outcome (list Z * Z) :=
  match disk w !! (l, i) with
  | None => Fault NullStream
  | Some bs =>
      let m := fst (mpz_inp_raw (snd st) bs) in
      Ok (fst st ++ [m], m)
  end.

(** Lines 169-188.  The number of files comes from the manifest; the closing
    [cout] reads element 0 of [moduli]. *)
Definition read_level_from_file (l : nat) (w : world) : outcome (list Z) :=
  n ← at_index (filesPerFloor w) l;
  r ← for_upto n (read_one l w) ([], 0%Z);
  _ ← at_index (fst r) 0;
  Ok (fst r).

(** ** The product tree *)

(** Lines 57-60: [for (i = 0; i < current_level.size()-1; i += 2)].  The
    enclosing [while] enters the body only with at least two elements, so the
    unsigned subtraction does not wrap. *)
Equations? multiply_pairs (current_level : list Z) (i : nat) (new_level : list Z)
  : list Z by wf (length current_level - i) lt :=
  multiply_pairs current_level i new_level
    with decide (i < length current_level - 1) => {
    | left _ =>
        multiply_pairs current_level (i + 2)
          (new_level ++ [Z.mul (current_level !!! i) (current_level !!! (i + 1))]);
    | right _ => new_level }.
Proof. lia. Qed.

(** Lines 50-65: the products of the pairs, then the orphan
    [current_level.back()] when the size is odd. *)
Definition next_level (current_level : list Z) : list Z :=
  let new_level := multiply_pairs current_level 0 [] in
  if decide (length current_level mod 2 ≠ 0)
  then new_level ++ [current_level !!! (length current_level - 1)]
  else new_level.

(** The pair loop appends one product per two elements from [i] on; this is
    what makes the [while] loop of [product_tree] terminate. *)
Lemma multiply_pairs_length (current_level : list Z) (i : nat) (new_level : list Z) :
  length (multiply_pairs current_level i new_level)
  = length new_level + (length current_level - i) / 2.
Proof.
  funelim (multiply_pairs current_level i new_level).
  - match goal with IH : length (multiply_pairs _ _ _) = _ |- _ => rewrite IH end.
    rewrite length_app; cbn [length].
    replace (length current_level - i) with (length current_level - (i + 2) + 1 * 2) by lia.
    rewrite Nat.div_add by lia. lia.
  - assert (length current_level - i = 0 \/ length current_level - i = 1) as [-> | ->] by lia;
      cbn; lia.
Qed.

Lemma next_level_length (current_level : list Z) :
  length (next_level current_level) = (length current_level + 1) / 2.
Proof.
  unfold next_level; cbv zeta.
  pose proof (Nat.div_mod_eq (length current_level) 2) as Hdm.
  pose proof (Nat.mod_upper_bound (length current_level) 2 ltac:(lia)) as Hlt.
  case_decide as Hodd; rewrite ?length_app, multiply_pairs_length; cbn [length];
    rewrite Nat.sub_0_r.
  - replace (length current_level + 1)
      with (0 + (length current_level / 2 + 1) * 2) by lia.
    rewrite Nat.div_add by lia. change (0 / 2) with 0. lia.
  - replace (length current_level + 1)
      with (1 + (length current_level / 2) * 2) by lia.
    rewrite Nat.div_add by lia. change (1 / 2) with 0. lia.
Qed.

(** Lines 46-73: the [while] loop, from level [l] on.  [X] is the caller's
    vector, emptied at the end of the iteration for level 0.  The result is
    the state at the loop's exit: [l], [current_level], [X] and the world. *)
Equations? tree_loop (l : nat) (current_level X : list Z) (w : world)
  : nat * list Z * list Z * world by wf (length current_level) lt :=
  tree_loop l current_level X w with decide (1 < length current_level) => {
    | left _ =>
        tree_loop (l + 1) (next_level current_level)
          (if decide (l = 0) then [] else X)
          (write_level_to_file l current_level
             (World (disk w) (filesPerFloor w ++ [length current_level])));
    | right _ => (l, current_level, X, w) }.
Proof.
  rewrite next_level_length.
  pose proof (Nat.div_mod_eq (length current_level + 1) 2).
  pose proof (Nat.mod_upper_bound (length current_level + 1) 2 ltac:(lia)).
  lia.
Qed.

(** [product_tree] returns the number of levels; the second component is the
    caller's vector [*X] after the call, the third the world after it. *)
Definition product_tree (X : list Z) (w : world) : nat * list Z * world :=
  let '(l, current_level, X', w') := tree_loop 0 X X w in
  (l + 1, X',
   write_level_to_file l current_level
     (World (disk w') (filesPerFloor w' ++ [length current_level]))).

(** ** The remainders *)

(** Lines 94-95, the body of the loop of [remainders_squares]:
    [R[i] *= R[i]; R[i] = Z % R[i]], where [Zroot] is the source's [Z]. *)
Definition reduce_slot (Zroot : Z) (i : nat) (R : list Z) : outcome (list Z) :=
  let R := <[i := Z.mul (R !!! i) (R !!! i)]> R in
  r ← mpz_rem Zroot (R !!! i);
  Ok (<[i := r]> R).

(** Lines 89-97.  [levels] is an [int]; for [levels = 0] the file asked for is
    in [level-1], which nothing ever writes. *)
Definition remainders_squares (levels : nat) (w : world) : outcome (list Z) :=
  R ← read_level_from_file 0 w;
  Zroot ← match levels with
          | O => Fault NullStream
          | S top => read_variable_from_file top 0 w
          end;
  for_upto (length R) (reduce_slot Zroot) R.

(** Lines 121-124, the body of the inner loop of [remainders_squares_fast]. *)
Definition reduce_child (l : nat) (R : list Z) (w : world) (i : nat) (newR : list Z)
  : outcome (list Z) :=
  square ← read_variable_from_file l i w;
  let square := Z.mul square square in
  parent ← at_index R (i / 2);
  square ← mpz_rem parent square;
  Ok (newR ++ [square]).

(** Lines 115-126, one pass over level [l]: [newR] is rebuilt from the
    remainders [R] of the level above and replaces them. *)
Definition partial_remainders (l : nat) (R : list Z) (w : world)
  : outcome (list Z) :=
  lengthY ← at_index (filesPerFloor w) l;
  for_upto lengthY (reduce_child l R w) [].

(** Lines 114-127: [for (int l = n - 1; l >= 0; l--)]. *)
Fixpoint descend (n : nat) (R : list Z) (w : world) : outcome (list Z) :=
  match n with
  | O => Ok R
  | S l => newR ← partial_remainders l R w; descend l newR w
  end.

(** Lines 106-130.  For [levels = 0] the first read indexes the manifest at
    -1. *)
Definition remainders_squares_fast (levels : nat) (w : world)
  : outcome (list Z) :=
  match levels with
  | O => Fault OutOfRange
  | S top =>
      R ← read_level_from_file top w;
      if decide (length R ≠ 1) then Fault Incomplete
      else descend top R w
  end.

(** ** The entry point *)

(** Lines 54-55 of [main], the body of the final loop. *)
Definition divide_and_gcd (input_moduli : list Z) (i : nat) (R : list Z)
  : outcome (list Z) :=
  r ← at_index R i;
  q ← mpz_quot r (input_moduli !!! i);
  let R := <[i := q]> R in
  Ok (<[i := Z.gcd (R !!! i) (input_moduli !!! i)]> R).

(** Lines 53-56 of [main]: the bound is the size of [input_moduli], the vector
    indexed without a check is [R]. *)
Definition final_gcds (input_moduli R : list Z) : outcome (list Z) :=
  for_upto (length input_moduli) (divide_and_gcd input_moduli) R.

(** Lines 58-63 of [main]. *)
Definition compromised (R : list Z) : nat :=
  loop_upto (length R)
    (fun i c => if decide (R !!! i ≠ 1%Z) then c + 1 else c) 0.

(** [main], from the moduli the CSV reader left in the global
    [input_moduli] and the directory it finds.  The result is [R] after part
    (B), [R] after the final loop and the count printed. *)
Definition main (input_moduli : list Z) (d : gmap (nat * nat) (list byte))
  : outcome (list Z * list Z * nat) :=
  let '(levels, input_moduli, w) := product_tree input_moduli (initial_world d) in
  RB ← remainders_squares levels w;
  R ← final_gcds input_moduli RB;
  Ok (RB, R, compromised R).

End Program.

(** ** The CSV reader *)

(** [mpz_class(std::string)] and [std::stoi] belong to GMP and to the C++
    library and are taken as a parameter: the value read, or [None] when the
    call throws ([std::invalid_argument], [std::out_of_range]). *)
Class TextIO : Type := {
  mpz_of_string : list ascii -> option Z;
  stoi : list ascii -> option Z
}.

Definition comma : ascii := ","%char.
Definition newline : ascii := "010"%char.

(** [boost::algorithm::split] with [is_any_of] of one character and the
    default [token_compress_off]: the pieces between the separators, the empty
    ones included; at least one piece. *)
Fixpoint split_fields (sep : ascii) (s : list ascii) : list (list ascii) :=
  match s with
  | [] => [[]]
  | c :: s' =>
      if Ascii.eqb c sep then [] :: split_fields sep s'
      else match split_fields sep s' with
           | f :: fs => (c :: f) :: fs
           | [] => [[c]]
           end
  end.

(** The lines [while (getline(file, line))] goes through: the pieces between
    the newlines, without a last piece that is empty (at the end of the file
    [getline] fails when it extracts nothing). *)
Definition file_lines (s : list ascii) : list (list ascii) :=
  let pieces := split_fields newline s in
  match last pieces with
  | Some [] => removelast pieces
  | _ => pieces
  end.

(** The ways the loop of [read_moduli_from_csv] stops early: [vec[2]] past
    the end of [vec], an exception of [mpz_class(vec[2])], an exception of
    [stoi(vec[0])]. *)
Inductive csv_stop : Type := ShortRow | BadModulus | BadId.

Section CsvReader.
Context {text : TextIO}.

(** Lines 22-25, the body of the loop, on the pair of [*moduli] and
    [*IDs]: [vec[2]] is read and converted first, then [vec[0]]; both pushes
    come after both conversions. *)
Definition read_row (line : list ascii) (st : list Z * list Z)
  : (list Z * list Z) + csv_stop :=
  let vec := split_fields comma line in
  match vec !! 2 with
  | None => inr ShortRow
  | Some f2 =>
      match mpz_of_string f2 with
      | None => inr BadModulus
      | Some n =>
          match vec !! 0 with
          | None => inr ShortRow
          | Some f0 =>
              match stoi f0 with
              | None => inr BadId
              | Some id => inl (fst st ++ [n], snd st ++ [id])
              end
          end
      end
  end.

(** Lines 20-26: the loop over the lines.  The result is the two vectors as
    the loop leaves them and how it stopped. *)
Fixpoint read_rows (lines : list (list ascii)) (st : list Z * list Z)
  : list Z * list Z * option csv_stop :=
  match lines with
  | [] => (st, None)
  | line :: rest =>
      match read_row line st with
      | inl st' => read_rows rest st'
      | inr e => (st, Some e)
      end
  end.

(** Lines 12-30.  [file] is what the file system holds under [filename]: a
    file that cannot be opened gives a stream on which [getline] fails at
    once. *)
Definition read_moduli_from_csv (file : option (list ascii))
    (moduli IDs : list Z) : list Z * list Z * option csv_stop :=
  match file with
  | None => (moduli, IDs, None)
  | Some s => read_rows (file_lines s) (moduli, IDs)
  end.

End CsvReader.

(** A line of fields joined by commas, and a file of such lines, each ended
    by a newline. *)
Definition render_row (fields : list (list ascii)) : list ascii :=
  match fields with
  | [] => []
  | f :: fs => f ++ concat (map (fun g => comma :: g) fs)
  end.

Definition render_rows (rows : list (list (list ascii))) : list ascii :=
  concat (map (fun r => render_row r ++ [newline]) rows).

(** A field that holds neither a comma nor a newline. *)
Definition clean_field (f : list ascii) : Prop :=
  (comma ∉ f) /\ (newline ∉ f).

(** A reader of unsigned decimal numerals, for the runs on concrete files
    only.  It is not a model of the two parsers: [mpz_class(string)] reads in
    base 0 (a leading 0 is octal, 0x is hexadecimal) and [stoi] takes a sign
    and trailing text and throws beyond [int].  On a numeral of a few digits
    with no leading zero the three agree. *)
Fixpoint decimal_value (acc : Z) (s : list ascii) : option Z :=
  match s with
  | [] => Some acc
  | c :: s' =>
      let n := nat_of_ascii c in
      if (48 <=? n) && (n <=? 57)
      then decimal_value (10 * acc + Z.of_nat (n - 48))%Z s'
      else None
  end.

Definition decimal_numeral (s : list ascii) : option Z :=
  match s with
  | [] => None
  | _ => decimal_value 0%Z s
  end.

Definition decimal_text : TextIO := {|
  mpz_of_string := decimal_numeral;
  stoi := decimal_numeral
|}.

(** * Functional descriptions

    What the loops above compute, written by recursion on the data; the
    properties below relate the code to them. *)

(** The product of a vector. *)
Definition lprod (v : list Z) : Z := foldr Z.mul 1%Z v.

(** The next level, by recursion on the pairs of the current one. *)
Fixpoint halve (v : list Z) : list Z :=
  match v with
  | a :: b :: rest => Z.mul a b :: halve rest
  | _ => v
  end.

(** The products of the pairs of a vector, without the orphan. *)
Fixpoint pair_products (v : list Z) : list Z :=
  match v with
  | a :: b :: rest => Z.mul a b :: pair_products rest
  | _ => []
  end.

(** The levels [product_tree] goes through, leaves first, root last. *)
Equations? tree_levels (current_level : list Z) : list (list Z)
  by wf (length current_level) lt :=
  tree_levels current_level with decide (1 < length current_level) => {
    | left _ => current_level :: tree_levels (next_level current_level);
    | right _ => [current_level] }.
Proof.
  rewrite next_level_length.
  pose proof (Nat.div_mod_eq (length current_level + 1) 2).
  pose proof (Nat.mod_upper_bound (length current_level + 1) 2 ltac:(lia)).
  lia.
Qed.

(** What lines 47-48 (and 77-78) do for each level in turn, from level [l]
    on: push the size on the manifest, write the files. *)
Fixpoint store_levels {io : RawIO} (l : nat) (Ls : list (list Z)) (w : world) : world :=
  match Ls with
  | [] => w
  | L :: Ls' =>
      store_levels (l + 1) Ls'
        (write_level_to_file l L (World (disk w) (filesPerFloor w ++ [length L])))
  end.

(** The remainder the passes compute for one modulus. *)
Definition rem_square (Zroot y : Z) : Z := Z.rem Zroot (Z.mul y y).

(** The state of the loop of [remainders_squares] before iteration [i]: the
    slots below [i] are reduced, the others still hold the leaves. *)
Definition reduced_upto (Zroot : Z) (X : list Z) (i : nat) (R : list Z) : Prop :=
  R = map (rem_square Zroot) (take i X) ++ drop i X.

(** [R] carries the root down to the level [L]: it has one entry per node,
    and reducing that entry by the square of any non-zero divisor of the node
    gives what reducing the root gives. *)
Definition carries (Zroot : Z) (L R : list Z) : Prop :=
  length R = length L
  /\ forall i p r c, L !! i = Some p -> R !! i = Some r -> c ≠ 0%Z -> (c | p)%Z ->
       rem_square r c = rem_square Zroot c.

(** The state of the loop of lines 53-56 before iteration [i], had
    [input_moduli] still held the moduli [X]: the slots below [i] hold the
    gcds, the others the remainders [RB]. *)
Definition gcds_upto (X RB : list Z) (i : nat) (R : list Z) : Prop :=
  R = zip_with (fun n r => Z.gcd (Z.quot r n) n) (take i X) (take i RB) ++ drop i RB.

(** * Properties *)

(** ** Fallible computations *)

Lemma bind_ok {A B : Type} (a : A) (k : A -> outcome B) :
  (Ok a ≫= k) = k a.
Proof. reflexivity. Qed.

Lemma at_index_ok {A : Type} (v : list A) (i : nat) (x : A) :
  v !! i = Some x -> at_index v i = Ok x.
Proof. unfold at_index. intros ->. reflexivity. Qed.

Lemma at_index_in_range {A : Type} (v : list A) (i : nat) :
  i < length v -> exists x, v !! i = Some x /\ at_index v i = Ok x.
Proof.
  intros Hi. destruct (lookup_lt_is_Some_2 v i Hi) as [x Hx].
  exists x. split; [assumption | apply at_index_ok; assumption].
Qed.

Lemma mpz_rem_ok (a b : Z) : b ≠ 0%Z -> mpz_rem a b = Ok (Z.rem a b).
Proof. intros Hb. unfold mpz_rem. case_decide; [contradiction | reflexivity]. Qed.

Lemma mpz_quot_ok (a b : Z) : b ≠ 0%Z -> mpz_quot a b = Ok (Z.quot a b).
Proof. intros Hb. unfold mpz_quot. case_decide; [contradiction | reflexivity]. Qed.

(** Two loops with bodies that agree below the bound agree. *)
Lemma for_upto_ext {S : Type} (n : nat) (body1 body2 : nat -> S -> outcome S) (s : S) :
  (forall i s, i < n -> body1 i s = body2 i s) ->
  for_upto n body1 s = for_upto n body2 s.
Proof.
  induction n as [| n IH]; intros Hext; cbn [for_upto]; [reflexivity |].
  rewrite IH by (intros; apply Hext; lia).
  destruct (for_upto n body2 s) as [s' | f]; [| reflexivity].
  rewrite !bind_ok. apply Hext. lia.
Qed.

(** A loop whose body keeps an invariant indexed by the iteration, and may
    stop with the fault [e] only, either ends with the invariant at the bound
    or stops with [e]. *)
Lemma for_upto_inv_fault {S : Type} (I : nat -> S -> Prop) (e : fault) (n : nat)
    (body : nat -> S -> outcome S) (s : S) :
  I 0 s ->
  (forall i s, i < n -> I i s ->
     (exists s', body i s = Ok s' /\ I (Datatypes.S i) s') \/ body i s = Fault e) ->
  (exists s', for_upto n body s = Ok s' /\ I n s') \/ for_upto n body s = Fault e.
Proof.
  intros H0. induction n as [| n IH]; intros Hbody; cbn [for_upto].
  - left. exists s. auto.
  - destruct IH as [(s' & -> & Hs') | ->]; [intros; apply Hbody; auto; lia | | right; reflexivity].
    rewrite bind_ok.
    destruct (Hbody n s' ltac:(lia) Hs') as [(s'' & -> & Hs'') | ->]; eauto.
Qed.

(** When the body cannot fault, the loop ends with the invariant. *)
Lemma for_upto_inv {S : Type} (I : nat -> S -> Prop) (n : nat)
    (body : nat -> S -> outcome S) (s : S) :
  I 0 s ->
  (forall i s, i < n -> I i s -> exists s', body i s = Ok s' /\ I (Datatypes.S i) s') ->
  exists s', for_upto n body s = Ok s' /\ I n s'.
Proof.
  intros H0. induction n as [| n IH]; intros Hbody; cbn [for_upto].
  - exists s. auto.
  - destruct IH as (s' & -> & Hs'); [intros; apply Hbody; auto; lia |].
    rewrite bind_ok. apply Hbody; auto.
Qed.

(** When some iteration is bound to stop with [e], the loop stops with [e]. *)
Lemma for_upto_fault_at {S : Type} (I : nat -> S -> Prop) (e : fault) (n i0 : nat)
    (body : nat -> S -> outcome S) (s : S) :
  i0 < n -> I 0 s ->
  (forall i s, i < n -> I i s ->
     (exists s', body i s = Ok s' /\ I (Datatypes.S i) s') \/ body i s = Fault e) ->
  (forall s, I i0 s -> body i0 s = Fault e) ->
  for_upto n body s = Fault e.
Proof.
  intros Hi0 H0 Hbody Hstop. induction n as [| n IH]; [lia |]. cbn [for_upto].
  destruct (for_upto_inv_fault I e n body s H0) as [(s' & Hrun & Hs') | Hrun];
    [intros; apply Hbody; auto; lia | |].
  - destruct (decide (i0 = n)) as [-> | Hne].
    + rewrite Hrun, bind_ok. apply Hstop. assumption.
    + rewrite IH in Hrun by (try lia; intros; apply Hbody; auto; lia). discriminate.
  - rewrite Hrun. reflexivity.
Qed.

(** ** The level store *)

Section LevelStore.
Context {io : RawIO}.

Lemma write_level_manifest (l : nat) (X : list Z) (w : world) :
  filesPerFloor (write_level_to_file l X w) = filesPerFloor w.
Proof. reflexivity. Qed.

(** After a level is written, its files hold the records of its elements and
    every other file is as before. *)
Lemma write_level_lookup (l : nat) (X : list Z) (w : world) (l' j : nat) :
  disk (write_level_to_file l X w) !! (l', j)
  = if decide (l' = l /\ j < length X)
    then Some (mpz_out_raw (X !!! j))
    else disk w !! (l', j).
Proof.
  unfold write_level_to_file; cbn [disk].
  generalize (length X) as n. induction n as [| n IH]; cbn [loop_upto].
  - case_decide as Hc; [lia | reflexivity].
  - rewrite lookup_insert, IH.
    destruct (decide ((l, n) = (l', j))) as [Heq | Hne].
    + injection Heq as <- <-.
      rewrite decide_True by (split; [reflexivity | lia]). reflexivity.
    + destruct (decide (l' = l /\ j < n)) as [[-> Hj] | Hout].
      * rewrite decide_True by (split; [reflexivity | lia]). reflexivity.
      * destruct (decide (l' = l /\ j < S n)) as [[-> Hj] | Hout']; [| reflexivity].
        exfalso. assert (j = n) as -> by (apply Nat.le_antisymm; [lia |];
          apply Nat.nlt_ge; intros Hlt; apply Hout; split; [reflexivity | assumption]).
        apply Hne. reflexivity.
Qed.

Lemma read_variable_present (level index : nat) (w : world) (bs : list byte) :
  disk w !! (level, index) = Some bs ->
  read_variable_from_file level index w = Ok (fst (mpz_inp_raw 0%Z bs)).
Proof. unfold read_variable_from_file. intros ->. reflexivity. Qed.




Section StoreRoundTrip.
Hypothesis raw_ok : raw_round_trip io.

Lemma read_variable_written (level index : nat) (w : world) (z : Z) :
  disk w !! (level, index) = Some (mpz_out_raw z) ->
  read_variable_from_file level index w = Ok z.
Proof.
  intros Hf. rewrite (read_variable_present _ _ _ _ Hf), raw_ok. reflexivity.
Qed.

Lemma read_files_written (l : nat) (w : world) (v : list Z) (n : nat) (old : Z) :
  n <= length v ->
  (forall i, i < n -> disk w !! (l, i) = Some (mpz_out_raw (v !!! i))) ->
  exists m, for_upto n (read_one l w) ([], old) = Ok (take n v, m).
Proof.
  induction n as [| n IH]; intros Hn Hfiles; cbn [for_upto].
  - exists old. rewrite take_0. reflexivity.
  - destruct IH as [m ->]; [lia | intros; apply Hfiles; lia |].
    rewrite bind_ok. unfold read_one. rewrite Hfiles by lia. cbn [fst snd].
    rewrite raw_ok.
    destruct (lookup_lt_is_Some_2 v n ltac:(lia)) as [x Hx].
    rewrite (take_S_r v n x Hx).
    rewrite (list_lookup_total_correct v n x Hx). exists x. reflexivity.
Qed.

(** Reading a level gives the sequence [v] when the manifest records its size
    and the files hold the records of its elements. *)
Lemma read_level_written (l : nat) (w : world) (v : list Z) :
  v ≠ [] ->
  filesPerFloor w !! l = Some (length v) ->
  (forall i, i < length v -> disk w !! (l, i) = Some (mpz_out_raw (v !!! i))) ->
  read_level_from_file l w = Ok v.
Proof.
  intros Hne Hsize Hfiles. unfold read_level_from_file.
  rewrite (at_index_ok _ _ _ Hsize), bind_ok.
  destruct (read_files_written l w v (length v) 0%Z) as [m ->];
    [lia | assumption |].
  rewrite bind_ok. cbn [fst]. rewrite firstn_all.
  destruct v as [| x v]; [contradiction |]. reflexivity.
Qed.

End StoreRoundTrip.
End LevelStore.

(** ** One step of the product tree *)

Lemma pair_ind (P : list Z -> Prop) :
  P [] -> (forall a, P [a]) -> (forall a b rest, P rest -> P (a :: b :: rest)) ->
  forall v, P v.
Proof.
  intros Hnil Hone Hstep v.
  assert (H2 : P v /\ forall a, P (a :: v)).
  { induction v as [| b v [IHv IHav]]; split; auto. }
  apply H2.
Qed.

Lemma halve_length (v : list Z) : length (halve v) = (length v + 1) / 2.
Proof.
  induction v as [| a | a b rest IH] using pair_ind; try reflexivity.
  cbn [halve length]. rewrite IH.
  replace (S (S (length rest)) + 1) with (length rest + 1 + 1 * 2) by lia.
  rewrite Nat.div_add by lia. lia.
Qed.

Lemma halve_lookup (v : list Z) (i : nat) :
  halve v !! i
  = if decide (2 * i + 1 < length v)
    then Some (Z.mul (v !!! (2 * i)) (v !!! (2 * i + 1)))
    else v !! (2 * i).
Proof.
  revert i. induction v as [| a | a b rest IH] using pair_ind; intros i.
  - destruct i; reflexivity.
  - case_decide as Hc; [simpl in Hc; lia |]. destruct i; [reflexivity |].
    simpl. rewrite Nat.add_0_r, Nat.add_succ_r. reflexivity.
  - destruct i as [| i].
    + reflexivity.
    + cbn [halve]. rewrite lookup_cons. rewrite IH.
      replace (2 * S i) with (S (S (2 * i))) by lia.
      cbn [length]. repeat case_decide; try lia; reflexivity.
Qed.

Lemma halve_lprod (v : list Z) : lprod (halve v) = lprod v.
Proof.
  induction v as [| a | a b rest IH] using pair_ind; try reflexivity.
  cbn [halve]. unfold lprod in *. cbn [foldr]. rewrite IH. lia.
Qed.

Lemma multiply_pairs_spec (current_level : list Z) (i : nat) (new_level : list Z) :
  multiply_pairs current_level i new_level
  = new_level ++ pair_products (drop i current_level).
Proof.
  funelim (multiply_pairs current_level i new_level).
  - match goal with IH : multiply_pairs _ _ _ = _ ++ _ |- _ => rewrite IH end.
    destruct (lookup_lt_is_Some_2 current_level i ltac:(lia)) as [x Hx].
    destruct (lookup_lt_is_Some_2 current_level (i + 1) ltac:(lia)) as [y Hy].
    rewrite (list_lookup_total_correct _ _ _ Hx), (list_lookup_total_correct _ _ _ Hy).
    rewrite (drop_S _ _ _ Hx).
    replace (S i) with (i + 1) by lia. rewrite (drop_S _ _ _ Hy).
    replace (S (i + 1)) with (i + 2) by lia.
    cbn [pair_products]. rewrite <- app_assoc. reflexivity.
  - pose proof (length_drop current_level i) as Hlen.
    destruct (drop i current_level) as [| a [| b rest]]; cbn [length] in Hlen;
      try lia; cbn [pair_products]; rewrite app_nil_r; reflexivity.
Qed.

Lemma halve_pair_products (v : list Z) :
  halve v
  = pair_products v
    ++ (if decide (length v mod 2 ≠ 0) then [v !!! (length v - 1)] else []).
Proof.
  induction v as [| a | a b rest IH] using pair_ind; try reflexivity.
  cbn [halve pair_products]. rewrite IH. cbn [app]. f_equal. f_equal.
  cbn [length].
  replace (S (S (length rest))) with (length rest + 1 * 2) by lia.
  rewrite Nat.Div0.mod_add.
  case_decide as Hodd; [| reflexivity].
  assert (length rest ≠ 0) by (intros E; rewrite E in Hodd; apply Hodd; reflexivity).
  replace (length rest + 1 * 2 - 1) with (S (S (length rest - 1))) by lia.
  reflexivity.
Qed.

(** The code of lines 50-65 computes [halve]. *)
Lemma next_level_halve (current_level : list Z) :
  next_level current_level = halve current_level.
Proof.
  unfold next_level; cbv zeta. rewrite multiply_pairs_spec, drop_0, app_nil_l.
  rewrite halve_pair_products. case_decide; [reflexivity | rewrite app_nil_r; reflexivity].
Qed.

(** ** The levels of the tree *)

Lemma tree_levels_head (v : list Z) : exists Ls, tree_levels v = v :: Ls.
Proof.
  funelim (tree_levels v); eauto.
Qed.

Lemma tree_levels_lookup_0 (v : list Z) : tree_levels v !! 0 = Some v.
Proof. destruct (tree_levels_head v) as [Ls ->]. reflexivity. Qed.

Lemma tree_levels_length_pos (v : list Z) : 0 < length (tree_levels v).
Proof. destruct (tree_levels_head v) as [Ls ->]. simpl. lia. Qed.

(** Each level above the leaves is the code's [next_level] of the level
    below, which has at least two elements. *)
Lemma tree_levels_step (v : list Z) (j : nat) (L' : list Z) :
  tree_levels v !! S j = Some L' ->
  exists L, tree_levels v !! j = Some L /\ 1 < length L /\ L' = next_level L.
Proof.
  revert j. funelim (tree_levels v); intros j Hj.
  - destruct j as [| j].
    + cbn in Hj. rewrite tree_levels_lookup_0 in Hj. injection Hj as <-.
      exists current_level. auto.
    + cbn in Hj.
      match goal with IH : forall L' j, _ -> _ |- _ =>
        destruct (IH _ _ Hj) as (L & HL & Hlen & ->) end.
      exists L. auto.
  - destruct j; discriminate.
Qed.

Lemma tree_levels_nonempty (v : list Z) (j : nat) (L : list Z) :
  v ≠ [] -> tree_levels v !! j = Some L -> L ≠ [].
Proof.
  intros Hv. revert L. induction j as [| j IH]; intros L HL.
  - rewrite tree_levels_lookup_0 in HL. congruence.
  - destruct (tree_levels_step v j L HL) as (L0 & HL0 & Hlen & ->).
    intros E. apply (f_equal length) in E. rewrite next_level_length in E.
    cbn [length] in E.
    pose proof (Nat.div_mod_eq (length L0 + 1) 2).
    pose proof (Nat.mod_upper_bound (length L0 + 1) 2 ltac:(lia)). lia.
Qed.

Lemma tree_levels_lprod (v : list Z) (j : nat) (L : list Z) :
  tree_levels v !! j = Some L -> lprod L = lprod v.
Proof.
  revert L. induction j as [| j IH]; intros L HL.
  - rewrite tree_levels_lookup_0 in HL. congruence.
  - destruct (tree_levels_step v j L HL) as (L0 & HL0 & Hlen & ->).
    rewrite next_level_halve, halve_lprod. apply IH. assumption.
Qed.

(** The last level has at most one element. *)
Lemma tree_levels_last (v : list Z) :
  exists top, tree_levels v !! (length (tree_levels v) - 1) = Some top
              /\ length top <= 1.
Proof.
  funelim (tree_levels v).
  - match goal with IH : exists top, _ |- _ => destruct IH as (top & Htop & Hlen) end.
    exists top. split; [| assumption].
    pose proof (tree_levels_length_pos (next_level current_level)).
    cbn [length].
    replace (S (length (tree_levels (next_level current_level))) - 1)
      with (S (length (tree_levels (next_level current_level)) - 1)) by lia.
    exact Htop.
  - exists current_level. split; [reflexivity | lia].
Qed.

(** For a non-empty input the root level is the product of the input, alone. *)
Lemma tree_levels_root (v : list Z) :
  v ≠ [] ->
  tree_levels v !! (length (tree_levels v) - 1) = Some [lprod v].
Proof.
  intros Hv. destruct (tree_levels_last v) as (top & Htop & Hlen).
  rewrite Htop. f_equal.
  pose proof (tree_levels_nonempty v _ top Hv Htop) as Hne.
  pose proof (tree_levels_lprod v _ top Htop) as Hprod.
  destruct top as [| z [| ? ?]]; [contradiction | | simpl in Hlen; lia].
  rewrite <- Hprod. unfold lprod. cbn [foldr]. f_equal. lia.
Qed.

(** ** What [product_tree] leaves behind *)

Section ProductTree.
Context {io : RawIO}.

Lemma tree_levels_unfold_many (v : list Z) :
  1 < length v -> tree_levels v = v :: tree_levels (next_level v).
Proof.
  intros Hv. funelim (tree_levels v); [reflexivity | lia].
Qed.

Lemma tree_levels_unfold_few (v : list Z) :
  ¬ 1 < length v -> tree_levels v = [v].
Proof.
  intros Hv. funelim (tree_levels v); [lia | reflexivity].
Qed.

(** The loop ends at the root level, with the caller's vector emptied when at
    least one iteration ran from level 0; together with the write that follows
    the loop it has stored every level of [tree_levels]. *)
Lemma tree_loop_spec (l : nat) (current_level X : list Z) (w : world) :
  exists top w',
    tree_loop l current_level X w
    = (l + length (tree_levels current_level) - 1, top,
       if decide (l = 0 /\ 1 < length current_level) then [] else X, w')
    /\ tree_levels current_level !! (length (tree_levels current_level) - 1) = Some top
    /\ write_level_to_file (l + length (tree_levels current_level) - 1) top
         (World (disk w') (filesPerFloor w' ++ [length top]))
       = store_levels l (tree_levels current_level) w.
Proof.
  funelim (tree_loop l current_level X w).
  - match goal with IH : exists top w', _ |- _ =>
      destruct IH as (top & w' & Hrun & Htop & Hstore) end.
    rewrite Hrun. rewrite (tree_levels_unfold_many current_level) by assumption.
    pose proof (tree_levels_length_pos (next_level current_level)) as Hpos.
    cbn [length store_levels].
    replace (l + S (length (tree_levels (next_level current_level))) - 1)
      with (l + 1 + length (tree_levels (next_level current_level)) - 1) by lia.
    exists top, w'. split; [| split].
    + f_equal. f_equal.
      rewrite (decide_False (P := l + 1 = 0 /\ _)) by lia.
      destruct (decide (l = 0)) as [-> | Hl].
      * rewrite decide_True by (split; [reflexivity | assumption]). reflexivity.
      * rewrite decide_False by lia. reflexivity.
    + replace (S (length (tree_levels (next_level current_level))) - 1)
        with (S (length (tree_levels (next_level current_level)) - 1)) by lia.
      exact Htop.
    + exact Hstore.
  - rewrite (tree_levels_unfold_few current_level) by assumption.
    cbn [length store_levels].
    exists current_level, w. split; [| split].
    + replace (l + 1 - 1) with l by lia.
      rewrite decide_False by lia. reflexivity.
    + reflexivity.
    + replace (l + 1 - 1) with l by lia. reflexivity.
Qed.

(** [product_tree] returns the number of levels of [tree_levels X], empties
    the caller's vector exactly when the loop body ran, and stores every level
    from level 0 on. *)
Lemma product_tree_spec (X : list Z) (w : world) :
  product_tree X w
  = (length (tree_levels X),
     if decide (1 < length X) then [] else X,
     store_levels 0 (tree_levels X) w).
Proof.
  unfold product_tree.
  destruct (tree_loop_spec 0 X X w) as (top & w' & -> & Htop & Hstore).
  pose proof (tree_levels_length_pos X) as Hpos.
  cbn [Nat.add] in *. rewrite Hstore.
  replace (length (tree_levels X) - 1 + 1) with (length (tree_levels X)) by lia.
  destruct (decide (1 < length X)).
  - rewrite decide_True by auto. reflexivity.
  - rewrite decide_False by tauto. reflexivity.
Qed.

Lemma store_levels_manifest (l : nat) (Ls : list (list Z)) (w : world) :
  filesPerFloor (store_levels l Ls w) = filesPerFloor w ++ map length Ls.
Proof.
  revert l w. induction Ls as [| L Ls IH]; intros l w; cbn [store_levels map].
  - rewrite app_nil_r. reflexivity.
  - rewrite IH, write_level_manifest. cbn [filesPerFloor].
    rewrite <- app_assoc. reflexivity.
Qed.

(** Storing levels from [l] on leaves the files of lower levels alone. *)
Lemma store_levels_below (l : nat) (Ls : list (list Z)) (w : world) (l' j : nat) :
  l' < l -> disk (store_levels l Ls w) !! (l', j) = disk w !! (l', j).
Proof.
  revert l w. induction Ls as [| L Ls IH]; intros l w Hl; cbn [store_levels].
  - reflexivity.
  - rewrite IH by lia. rewrite write_level_lookup.
    rewrite decide_False by lia. reflexivity.
Qed.

(** The files of level [l + k] hold the records of the k-th stored level. *)
Lemma store_levels_lookup (l : nat) (Ls : list (list Z)) (w : world)
    (k j : nat) (L : list Z) :
  Ls !! k = Some L -> j < length L ->
  disk (store_levels l Ls w) !! (l + k, j) = Some (mpz_out_raw (L !!! j)).
Proof.
  revert l w k. induction Ls as [| L0 Ls IH]; intros l w k HL Hj;
    [discriminate |]. cbn [store_levels].
  destruct k as [| k].
  - injection HL as ->. rewrite Nat.add_0_r.
    rewrite store_levels_below by lia. rewrite write_level_lookup.
    rewrite decide_True by auto. reflexivity.
  - replace (l + S k) with (l + 1 + k) by lia. apply IH; assumption.
Qed.

Section TreeRoundTrip.
Hypothesis raw_ok : raw_round_trip io.

(** In a process that starts with an empty manifest, every level of the tree
    of a non-empty input is read back as it was built. *)
Lemma read_tree_level (X : list Z) (d : gmap (nat * nat) (list byte))
    (k : nat) (L : list Z) :
  X ≠ [] -> tree_levels X !! k = Some L ->
  read_level_from_file k (store_levels 0 (tree_levels X) (initial_world d)) = Ok L.
Proof.
  intros HX HL. apply read_level_written; [assumption | | |].
  - exact (tree_levels_nonempty X k L HX HL).
  - rewrite store_levels_manifest. cbn [initial_world filesPerFloor app].
    rewrite list_lookup_fmap, HL. reflexivity.
  - intros i Hi. exact (store_levels_lookup 0 _ _ k i L HL Hi).
Qed.

Lemma read_tree_variable (X : list Z) (w : world) (k j : nat) (L : list Z) (y : Z) :
  tree_levels X !! k = Some L -> L !! j = Some y ->
  read_variable_from_file k j (store_levels 0 (tree_levels X) w) = Ok y.
Proof.
  intros HL Hy. apply read_variable_written; [assumption |].
  rewrite (store_levels_lookup 0 _ _ k j L HL) by (eapply lookup_lt_Some; eassumption).
  rewrite (list_lookup_total_correct _ _ _ Hy). reflexivity.
Qed.

End TreeRoundTrip.
End ProductTree.

(** * The claims about the product tree and the level store *)

Section TreeClaims.
Context {io : RawIO}.

(** C10.  [product_tree] empties the caller's vector exactly when the input has
    at least two elements: with two or more moduli the vector is empty on
    return, with fewer (in particular with a single modulus) it is returned
    as it was passed. *)
Theorem product_tree_input_vector (X : list Z) (w : world) :
  let X' := snd (fst (product_tree X w)) in
  (2 <= length X -> X' = [])
  /\ (length X < 2 -> X' = X)
  /\ (X' = [] /\ X ≠ [] <-> 2 <= length X).
Proof.
  cbv zeta. rewrite product_tree_spec. cbn [fst snd].
  destruct (decide (1 < length X)) as [Hmany | Hfew].
  - split; [reflexivity |]. split; [lia |]. split; [lia |].
    intros _. split; [reflexivity |]. intros ->. simpl in Hmany. lia.
  - split; [lia |]. split; [reflexivity |]. split; [| lia].
    intros [-> HX]. contradiction.
Qed.


Section TreeClaimsRoundTrip.
Hypothesis raw_ok : raw_round_trip io.

(** C7, as the code has it.  Writing a non-empty sequence [v] as level [l]
    and reading level [l] back gives [v], element for element and in order,
    provided the manifest entry for [l] is the size of [v]: the reader takes
    the number of files from [filesPerFloor], not from the directory. *)
Theorem write_read_level_round_trip (l : nat) (v : list Z) (w : world) :
  v ≠ [] ->
  filesPerFloor w !! l = Some (length v) ->
  read_level_from_file l (write_level_to_file l v w) = Ok v.
Proof.
  intros Hne Hsize. apply read_level_written; try assumption.
  intros i Hi. rewrite write_level_lookup.
  rewrite decide_True by auto. reflexivity.
Qed.

(** C4.  For a non-empty input, after [product_tree] the manifest records one
    file for the top level [levels - 1], and that level, read back from the
    disk, is the product of all the moduli and nothing else. *)
Theorem product_tree_root (X : list Z) (d : gmap (nat * nat) (list byte)) :
  X ≠ [] ->
  let levels := fst (fst (product_tree X (initial_world d))) in
  let w := snd (product_tree X (initial_world d)) in
  filesPerFloor w !! (levels - 1) = Some 1
  /\ read_level_from_file (levels - 1) w = Ok [lprod X]
  /\ read_variable_from_file (levels - 1) 0 w = Ok (lprod X).
Proof.
  intros HX. cbv zeta. rewrite product_tree_spec. cbn [fst snd].
  pose proof (tree_levels_root X HX) as Hroot.
  split; [| split].
  - rewrite store_levels_manifest. cbn [initial_world filesPerFloor app].
    rewrite list_lookup_fmap, Hroot. reflexivity.
  - apply read_tree_level; assumption.
  - eapply read_tree_variable; [assumption | exact Hroot | reflexivity].
Qed.

(** C6.  Every level [l >= 1] that [product_tree] stores is built from level
    [l - 1] pair by pair: element [i] is the product of elements [2i] and
    [2i+1] of the level below, except that when [2i+1] is past its end the
    element [2i] is carried over unchanged; so an unpaired last element of the
    level below is the last element of the level. *)
Theorem product_tree_level_construction (X : list Z)
    (d : gmap (nat * nat) (list byte)) (l : nat) :
  let levels := fst (fst (product_tree X (initial_world d))) in
  let w := snd (product_tree X (initial_world d)) in
  1 <= l -> l < levels ->
  exists Lprev Lcur,
    read_level_from_file (l - 1) w = Ok Lprev
    /\ read_level_from_file l w = Ok Lcur
    /\ length Lcur = (length Lprev + 1) / 2
    /\ (forall i, i < length Lcur ->
          Lcur !! i
          = if decide (2 * i + 1 < length Lprev)
            then Some (Z.mul (Lprev !!! (2 * i)) (Lprev !!! (2 * i + 1)))
            else Lprev !! (2 * i))
    /\ (length Lprev mod 2 = 1 ->
          Lcur !! (length Lcur - 1) = Lprev !! (length Lprev - 1)).
Proof.
  cbv zeta. rewrite product_tree_spec. cbn [fst snd]. intros Hl Hlev.
  destruct (lookup_lt_is_Some_2 _ _ Hlev) as [Lcur HLcur].
  destruct l as [| l]; [lia |].
  destruct (tree_levels_step X l Lcur HLcur) as (Lprev & HLprev & Hlen & ->).
  assert (HX : X ≠ []).
  { intros ->. rewrite tree_levels_unfold_few in HLcur by (simpl; lia).
    discriminate. }
  exists Lprev, (next_level Lprev).
  replace (S l - 1) with l by lia.
  split; [apply read_tree_level; assumption |].
  split; [apply read_tree_level; assumption |].
  rewrite next_level_halve.
  split; [apply halve_length |].
  split; [intros i _; apply halve_lookup |].
  intros Hodd. rewrite halve_lookup, halve_length.
  pose proof (Nat.div_mod_eq (length Lprev) 2) as Hdm.
  replace (length Lprev + 1) with (0 + (length Lprev / 2 + 1) * 2) by lia.
  rewrite Nat.div_add by lia. change (0 / 2) with 0.
  rewrite decide_False by lia. f_equal. lia.
Qed.

End TreeClaimsRoundTrip.
End TreeClaims.

(** * The remainders *)

(** ** Arithmetic of the truncating remainder *)

(** Reducing first by a multiple of [c] does not change the remainder by [c]. *)
Lemma rem_rem_divide (a m c : Z) :
  c ≠ 0%Z -> m ≠ 0%Z -> (c | m)%Z -> Z.rem (Z.rem a m) c = Z.rem a c.
Proof.
  intros Hc Hm Hdiv.
  destruct (decide (Z.rem a m = 0%Z)) as [E | E].
  - rewrite E, Z.rem_0_l by assumption. symmetry.
    apply Z.rem_divide; [assumption |].
    apply Z.rem_divide in E; [| assumption].
    exact (Z.divide_trans _ _ _ Hdiv E).
  - rewrite (Z.rem_mod (Z.rem a m) c), (Z.rem_mod a c) by assumption.
    rewrite (Z.rem_sign_nz a m) by assumption. f_equal.
    rewrite <- (Z.rem_abs_l a m), <- (Z.rem_abs_r (Z.abs a) m) by assumption.
    rewrite Z.rem_mod_nonneg by lia.
    apply Z.mod_mod_divide.
    apply Z.divide_abs_l, Z.divide_abs_r. assumption.
Qed.

Lemma square_nonzero (y : Z) : y ≠ 0%Z -> Z.mul y y ≠ 0%Z.
Proof. nia. Qed.

Lemma square_divide (c p : Z) : (c | p)%Z -> (Z.mul c c | Z.mul p p)%Z.
Proof.
  intros [q ->]. exists (Z.mul q q). lia.
Qed.

Lemma lprod_nonzero (v : list Z) :
  lprod v ≠ 0%Z <-> Forall (fun y => y ≠ 0%Z) v.
Proof.
  unfold lprod. induction v as [| a v IH]; cbn [foldr].
  - split; [constructor | lia].
  - rewrite Forall_cons, <- IH. nia.
Qed.

Lemma lprod_divide (v : list Z) (i : nat) (y : Z) :
  v !! i = Some y -> (y | lprod v)%Z.
Proof.
  unfold lprod. revert i. induction v as [| a v IH]; intros i Hy; [discriminate |].
  cbn [foldr]. destruct i as [| i].
  - injection Hy as ->. apply Z.divide_mul_l, Z.divide_refl.
  - apply Z.divide_mul_r. exact (IH i Hy).
Qed.

(** The levels of a tree of non-zero moduli hold non-zero products. *)
Lemma tree_levels_nonzero (X : list Z) (j : nat) (L : list Z) :
  Forall (fun y => y ≠ 0%Z) X -> tree_levels X !! j = Some L ->
  Forall (fun y => y ≠ 0%Z) L.
Proof.
  intros HX HL. apply lprod_nonzero. rewrite (tree_levels_lprod X j L HL).
  apply lprod_nonzero. assumption.
Qed.

(** Element [i] of a level divides element [i / 2] of the level above, and
    [i / 2] is an index of the level above. *)
Lemma halve_parent (L : list Z) (i : nat) (y : Z) :
  L !! i = Some y ->
  exists p, halve L !! (i / 2) = Some p /\ (y | p)%Z.
Proof.
  intros Hy. pose proof (lookup_lt_Some _ _ _ Hy) as Hi.
  pose proof (Nat.div_mod_eq i 2) as Hdm.
  pose proof (Nat.mod_upper_bound i 2 ltac:(lia)) as Hm.
  rewrite halve_lookup. case_decide as Hpair.
  - eexists. split; [reflexivity |].
    assert (i = 2 * (i / 2) \/ i = 2 * (i / 2) + 1) as [E | E] by lia.
    + rewrite <- E, (list_lookup_total_correct _ _ _ Hy).
      apply Z.divide_mul_l, Z.divide_refl.
    + rewrite <- E, (list_lookup_total_correct _ _ _ Hy).
      apply Z.divide_mul_r, Z.divide_refl.
  - assert (i = 2 * (i / 2)) as E by lia. rewrite <- E.
    exists y. split; [assumption | apply Z.divide_refl].
Qed.

Lemma halve_parent_in_range (L : list Z) (i : nat) :
  i < length L -> i / 2 < length (halve L).
Proof.
  intros Hi. destruct (lookup_lt_is_Some_2 L i Hi) as [y Hy].
  destruct (halve_parent L i y Hy) as (p & Hp & _).
  exact (lookup_lt_Some _ _ _ Hp).
Qed.

(** ** The single-pass variant *)

Section SinglePass.
Context {io : RawIO}.

Lemma reduce_slot_step (Zroot : Z) (X : list Z) (i : nat) (x : Z) (R : list Z) :
  X !! i = Some x -> reduced_upto Zroot X i R ->
  reduce_slot Zroot i R
  = if decide (x = 0%Z) then Fault DivisionByZero
    else Ok (map (rem_square Zroot) (take (S i) X) ++ drop (S i) X).
Proof.
  intros Hx ->. pose proof (lookup_lt_Some _ _ _ Hx) as Hi.
  assert (Hpre : length (map (rem_square Zroot) (take i X)) = i).
  { rewrite length_map, length_take. lia. }
  unfold reduce_slot; cbv zeta. rewrite (drop_S X x i Hx).
  rewrite lookup_total_app_r by lia. rewrite Hpre, Nat.sub_diag.
  rewrite insert_app_r_alt by lia. rewrite Hpre, Nat.sub_diag.
  rewrite lookup_total_app_r by lia. rewrite Hpre, Nat.sub_diag.
  cbn [lookup_total list_lookup_total list_insert insert].
  unfold mpz_rem. destruct (decide (x = 0%Z)) as [-> | Hnz].
  - rewrite decide_True by reflexivity. reflexivity.
  - rewrite decide_False by (apply square_nonzero; assumption).
    rewrite bind_ok. rewrite insert_app_r_alt by lia. rewrite Hpre, Nat.sub_diag.
    cbn [list_insert insert].
    rewrite (take_S_r X i x Hx), map_app, <- app_assoc. reflexivity.
Qed.

Lemma reduce_slot_cases (Zroot : Z) (X : list Z) (i : nat) (R : list Z) :
  i < length X -> reduced_upto Zroot X i R ->
  (exists R', reduce_slot Zroot i R = Ok R' /\ reduced_upto Zroot X (S i) R')
  \/ reduce_slot Zroot i R = Fault DivisionByZero.
Proof.
  intros Hi HR. destruct (lookup_lt_is_Some_2 X i Hi) as [x Hx].
  rewrite (reduce_slot_step Zroot X i x R Hx HR).
  case_decide; [right; reflexivity | left; eexists; split; reflexivity].
Qed.

(** With no zero modulus the loop reduces every slot. *)
Lemma reduce_all_ok (Zroot : Z) (X : list Z) :
  Forall (fun y => y ≠ 0%Z) X ->
  for_upto (length X) (reduce_slot Zroot) X = Ok (map (rem_square Zroot) X).
Proof.
  intros Hnz.
  destruct (for_upto_inv (reduced_upto Zroot X) (length X) (reduce_slot Zroot) X)
    as (R' & -> & HR').
  - unfold reduced_upto. rewrite take_0, drop_0. reflexivity.
  - intros i R Hi HR. destruct (lookup_lt_is_Some_2 X i Hi) as [x Hx].
    rewrite (reduce_slot_step Zroot X i x R Hx HR).
    rewrite decide_False by (exact (Forall_lookup_1 _ _ _ _ Hnz Hx)).
    eexists; split; reflexivity.
  - rewrite HR'. rewrite firstn_all, drop_all, app_nil_r. reflexivity.
Qed.

(** With a zero modulus the loop stops on GMP's division by zero. *)
Lemma reduce_all_zero (Zroot : Z) (X : list Z) :
  Exists (fun y => y = 0%Z) X ->
  for_upto (length X) (reduce_slot Zroot) X = Fault DivisionByZero.
Proof.
  intros Hz. apply Exists_exists in Hz as (y & Hin & ->).
  apply list_elem_of_lookup in Hin as [i0 Hi0].
  apply (for_upto_fault_at (reduced_upto Zroot X) DivisionByZero (length X) i0).
  - exact (lookup_lt_Some _ _ _ Hi0).
  - unfold reduced_upto. rewrite take_0, drop_0. reflexivity.
  - intros i R Hi HR. apply reduce_slot_cases; assumption.
  - intros R HR. rewrite (reduce_slot_step Zroot X i0 0%Z R Hi0 HR).
    rewrite decide_True by reflexivity. reflexivity.
Qed.

Section SinglePassRoundTrip.
Hypothesis raw_ok : raw_round_trip io.

(** The single-pass variant after [product_tree]: the loop runs on the leaves
    read from level 0, with the root read from the top level. *)
Lemma remainders_squares_after_tree (X : list Z) (d : gmap (nat * nat) (list byte)) :
  X ≠ [] ->
  remainders_squares (length (tree_levels X))
    (store_levels 0 (tree_levels X) (initial_world d))
  = for_upto (length X) (reduce_slot (lprod X)) X.
Proof.
  intros HX. unfold remainders_squares.
  rewrite (read_tree_level raw_ok X d 0 X HX (tree_levels_lookup_0 X)), bind_ok.
  pose proof (tree_levels_length_pos X) as Hpos.
  pose proof (tree_levels_root X HX) as Hroot.
  destruct (length (tree_levels X)) as [| top]; [lia |].
  replace (S top - 1) with top in Hroot by lia.
  rewrite (read_tree_variable raw_ok X _ top 0 [lprod X] (lprod X) Hroot eq_refl).
  rewrite bind_ok. reflexivity.
Qed.

End SinglePassRoundTrip.
End SinglePass.

(** ** The remainder tree *)

Lemma carries_root (Zroot : Z) : carries Zroot [Zroot] [Zroot].
Proof.
  split; [reflexivity |]. intros [| i] p r c Hp Hr _ _; [| discriminate].
  injection Hr as <-. reflexivity.
Qed.

Lemma carries_reduced (Zroot : Z) (L : list Z) :
  Forall (fun y => y ≠ 0%Z) L -> carries Zroot L (map (rem_square Zroot) L).
Proof.
  intros Hnz. split; [apply length_map |]. intros i p r c Hp Hr Hc Hdiv.
  rewrite list_lookup_fmap, Hp in Hr. injection Hr as <-.
  pose proof (Forall_lookup_1 _ _ _ _ Hnz Hp) as Hpnz.
  unfold rem_square. apply rem_rem_divide.
  - apply square_nonzero; assumption.
  - apply square_nonzero; assumption.
  - apply square_divide; assumption.
Qed.

Section RemainderTree.
Context {io : RawIO}.
Hypothesis raw_ok : raw_round_trip io.
Variable X : list Z.
Variable d : gmap (nat * nat) (list byte).

Local Abbreviation w := (store_levels 0 (tree_levels X) (initial_world d)).

Lemma manifest_after_tree (l : nat) (L : list Z) :
  tree_levels X !! l = Some L -> at_index (filesPerFloor w) l = Ok (length L).
Proof.
  intros HL. apply at_index_ok. rewrite store_levels_manifest.
  cbn [initial_world filesPerFloor app]. rewrite list_lookup_fmap, HL. reflexivity.
Qed.

(** One iteration of the inner loop: the file is there, and the parent index
    [i / 2] is an index of [R] as soon as [R] has one entry per node of the
    level above. *)
Lemma reduce_child_in_range (l i : nat) (L R newR : list Z) (y : Z) :
  tree_levels X !! l = Some L -> L !! i = Some y ->
  length R = length (halve L) ->
  exists r, R !! (i / 2) = Some r
    /\ reduce_child l R w i newR
       = (s ← mpz_rem r (Z.mul y y); Ok (newR ++ [s])).
Proof.
  intros HL Hy Hlen. unfold reduce_child.
  rewrite (read_tree_variable raw_ok X _ l i L y HL Hy), bind_ok. cbv zeta.
  pose proof (halve_parent_in_range L i (lookup_lt_Some _ _ _ Hy)) as Hpar.
  rewrite <- Hlen in Hpar.
  destruct (at_index_in_range R (i / 2) Hpar) as (r & Hr & ->).
  rewrite bind_ok. exists r. split; [assumption | reflexivity].
Qed.

Lemma reduce_child_cases (l i : nat) (L R newR : list Z) :
  tree_levels X !! l = Some L -> i < length L ->
  length R = length (halve L) -> length newR = i ->
  (exists newR', reduce_child l R w i newR = Ok newR' /\ length newR' = S i)
  \/ reduce_child l R w i newR = Fault DivisionByZero.
Proof.
  intros HL Hi Hlen Hnew. destruct (lookup_lt_is_Some_2 L i Hi) as [y Hy].
  destruct (reduce_child_in_range l i L R newR y HL Hy Hlen) as (r & _ & ->).
  unfold mpz_rem. case_decide; [right; reflexivity | left].
  rewrite bind_ok. eexists. split; [reflexivity |].
  rewrite length_app. simpl. lia.
Qed.

(** A pass never reads [R] or the manifest out of range: it ends with one
    remainder per node of its level, or on a division by zero. *)
Lemma partial_remainders_safe (l : nat) (L R : list Z) :
  tree_levels X !! l = Some L -> length R = length (halve L) ->
  (exists newR, partial_remainders l R w = Ok newR /\ length newR = length L)
  \/ partial_remainders l R w = Fault DivisionByZero.
Proof.
  intros HL Hlen. unfold partial_remainders.
  rewrite (manifest_after_tree l L HL), bind_ok.
  apply (for_upto_inv_fault (fun i newR => length newR = i)); [reflexivity |].
  intros i newR Hi Hnew. eapply reduce_child_cases; eassumption.
Qed.

Lemma partial_remainders_zero (l : nat) (L R : list Z) :
  tree_levels X !! l = Some L -> length R = length (halve L) ->
  Exists (fun y => y = 0%Z) L ->
  partial_remainders l R w = Fault DivisionByZero.
Proof.
  intros HL Hlen Hz. apply Exists_exists in Hz as (y & Hin & ->).
  apply list_elem_of_lookup in Hin as [i0 Hi0].
  unfold partial_remainders. rewrite (manifest_after_tree l L HL), bind_ok.
  apply (for_upto_fault_at (fun i newR => length newR = i) DivisionByZero _ i0).
  - exact (lookup_lt_Some _ _ _ Hi0).
  - reflexivity.
  - intros i newR Hi Hnew. eapply reduce_child_cases; eassumption.
  - intros newR _.
    destruct (reduce_child_in_range l i0 L R newR 0%Z HL Hi0 Hlen) as (r & _ & ->).
    reflexivity.
Qed.

(** With no zero in the level, a pass from remainders that carry the root
    gives the root reduced by the square of every node. *)
Lemma partial_remainders_ok (l : nat) (L R : list Z) :
  tree_levels X !! l = Some L -> carries (lprod X) (halve L) R ->
  Forall (fun y => y ≠ 0%Z) L ->
  partial_remainders l R w = Ok (map (rem_square (lprod X)) L).
Proof.
  intros HL [Hlen Hcar] Hnz. unfold partial_remainders.
  rewrite (manifest_after_tree l L HL), bind_ok.
  destruct (for_upto_inv
              (fun i newR => newR = map (rem_square (lprod X)) (take i L))
              (length L) (reduce_child l R w) []) as (newR & -> & ->).
  - rewrite take_0. reflexivity.
  - intros i newR Hi ->. destruct (lookup_lt_is_Some_2 L i Hi) as [y Hy].
    destruct (reduce_child_in_range l i L R
                (map (rem_square (lprod X)) (take i L)) y HL Hy Hlen)
      as (r & Hr & ->).
    pose proof (Forall_lookup_1 _ _ _ _ Hnz Hy) as Hynz.
    rewrite mpz_rem_ok by (apply square_nonzero; assumption).
    rewrite bind_ok. eexists. split; [reflexivity |].
    rewrite (take_S_r L i y Hy), map_app. cbn [map]. do 2 f_equal.
    destruct (halve_parent L i y Hy) as (p & Hp & Hdiv).
    exact (Hcar (i / 2) p r y Hp Hr Hynz Hdiv).
  - rewrite firstn_all. reflexivity.
Qed.

Lemma descend_safe (n : nat) (Ln R : list Z) :
  tree_levels X !! n = Some Ln -> length R = length Ln ->
  (exists R', descend n R w = Ok R' /\ length R' = length X)
  \/ descend n R w = Fault DivisionByZero.
Proof.
  revert Ln R. induction n as [| l IH]; intros Ln R HLn Hlen; cbn [descend].
  - rewrite tree_levels_lookup_0 in HLn. injection HLn as <-. left. eauto.
  - destruct (tree_levels_step X l Ln HLn) as (L & HL & _ & ->).
    rewrite next_level_halve in Hlen.
    destruct (partial_remainders_safe l L R HL Hlen) as [(newR & -> & Hnew) | ->];
      [| right; reflexivity].
    rewrite bind_ok. exact (IH L newR HL Hnew).
Qed.

Lemma descend_ok (n : nat) (Ln R : list Z) :
  tree_levels X !! n = Some Ln -> carries (lprod X) Ln R ->
  Forall (fun y => y ≠ 0%Z) X ->
  descend n R w
  = Ok (if decide (n = 0) then R else map (rem_square (lprod X)) X).
Proof.
  intros HLn Hcar Hnz. revert Ln R HLn Hcar.
  induction n as [| l IH]; intros Ln R HLn Hcar; cbn [descend]; [reflexivity |].
  destruct (tree_levels_step X l Ln HLn) as (L & HL & _ & ->).
  rewrite next_level_halve in Hcar.
  pose proof (tree_levels_nonzero X l L Hnz HL) as HLnz.
  rewrite (partial_remainders_ok l L R HL Hcar HLnz), bind_ok.
  rewrite (IH L _ HL (carries_reduced _ L HLnz)).
  rewrite (decide_False (P := S l = 0)) by lia.
  destruct (decide (l = 0)) as [-> | Hl]; [| reflexivity].
  rewrite tree_levels_lookup_0 in HL. injection HL as <-. reflexivity.
Qed.

Lemma descend_zero (l : nat) (Ln R : list Z) :
  tree_levels X !! S l = Some Ln -> length R = length Ln ->
  Exists (fun y => y = 0%Z) X ->
  descend (S l) R w = Fault DivisionByZero.
Proof.
  intros HLn Hlen Hz. cbn [descend].
  destruct (tree_levels_step X l Ln HLn) as (L & HL & _ & ->).
  rewrite next_level_halve in Hlen.
  rewrite (partial_remainders_zero l L R HL Hlen); [reflexivity |].
  destruct (decide (Forall (fun y => y ≠ 0%Z) L)) as [HLnz | HLz].
  - exfalso. apply lprod_nonzero in HLnz.
    rewrite (tree_levels_lprod X l L HL) in HLnz.
    apply lprod_nonzero in HLnz. apply Exists_exists in Hz as (y & Hin & ->).
    rewrite Forall_forall in HLnz. exact (HLnz 0%Z Hin eq_refl).
  - apply not_Forall_Exists in HLz; [| intros y; apply _].
    eapply Exists_impl; [exact HLz |]. intros y Hy.
    destruct (decide (y = 0%Z)); [assumption | contradiction].
Qed.

(** The fast variant after [product_tree], for a non-empty input: the remainders
    start as the root alone and descend from the level under the top. *)
Lemma remainders_squares_fast_after_tree :
  X ≠ [] ->
  remainders_squares_fast (length (tree_levels X)) w
  = descend (length (tree_levels X) - 1) [lprod X] w.
Proof.
  intros HX. unfold remainders_squares_fast.
  pose proof (tree_levels_length_pos X) as Hpos.
  pose proof (tree_levels_root X HX) as Hroot.
  destruct (length (tree_levels X)) as [| top]; [lia |].
  replace (S top - 1) with top in * by lia.
  rewrite (read_tree_level raw_ok X d top [lprod X] HX Hroot), bind_ok.
  rewrite decide_False by (simpl; lia). reflexivity.
Qed.

End RemainderTree.

(** ** The final loop, run on the moduli *)

Lemma lprod_delete (X : list Z) (i : nat) (n : Z) :
  X !! i = Some n -> lprod X = Z.mul n (lprod (delete i X)).
Proof.
  unfold lprod. revert i. induction X as [| a X IH]; intros i Hn; [discriminate |].
  destruct i as [| i].
  - injection Hn as ->. reflexivity.
  - cbn [delete list_delete foldr]. rewrite (IH i Hn).
    rewrite !Z.mul_assoc, (Z.mul_comm a n). reflexivity.
Qed.

(** Dividing the remainder by the modulus and taking the gcd with it gives
    the gcd of the modulus with the product of the others. *)
Lemma gcd_of_reduced (n P : Z) :
  n ≠ 0%Z -> Z.gcd (Z.quot (rem_square (Z.mul n P) n) n) n = Z.gcd n P.
Proof.
  intros Hn. unfold rem_square.
  rewrite Z.mul_rem_distr_l by assumption.
  rewrite (Z.mul_comm n (Z.rem P n)), Z.quot_mul by assumption.
  apply Z.gcd_rem. assumption.
Qed.

Lemma divide_and_gcd_step (X RB : list Z) (i : nat) (n r : Z) (R : list Z) :
  length RB = length X -> X !! i = Some n -> RB !! i = Some r -> n ≠ 0%Z ->
  gcds_upto X RB i R ->
  exists R', divide_and_gcd X i R = Ok R' /\ gcds_upto X RB (S i) R'.
Proof.
  intros Hlen Hn Hr Hnz ->. pose proof (lookup_lt_Some _ _ _ Hn) as Hi.
  set (f := fun n r : Z => Z.gcd (Z.quot r n) n).
  assert (Hpre : length (zip_with f (take i X) (take i RB)) = i).
  { rewrite length_zip_with, !length_take. lia. }
  unfold divide_and_gcd. rewrite (drop_S RB r i Hr).
  rewrite (at_index_ok _ i r) by (rewrite lookup_app_r by lia;
    rewrite Hpre, Nat.sub_diag; reflexivity).
  rewrite bind_ok, (list_lookup_total_correct _ _ _ Hn), mpz_quot_ok by assumption.
  rewrite bind_ok. cbv zeta.
  rewrite insert_app_r_alt by lia. rewrite Hpre, Nat.sub_diag.
  cbn [list_insert insert].
  rewrite lookup_total_app_r by lia. rewrite Hpre, Nat.sub_diag.
  cbn [lookup_total list_lookup_total].
  rewrite insert_app_r_alt by lia. rewrite Hpre, Nat.sub_diag.
  cbn [list_insert insert].
  eexists. split; [reflexivity |]. unfold gcds_upto.
  rewrite (take_S_r X i n Hn), (take_S_r RB i r Hr).
  rewrite zip_with_app by (rewrite !length_take; lia).
  rewrite <- app_assoc. reflexivity.
Qed.

(** Run on the moduli themselves, the final loop of [main] turns the
    remainders of part (B) into what the specification asks of the last
    stage: entry [i] is the gcd of modulus [i] with the product of the other
    moduli, so it divides the modulus and exceeds 1 exactly when they share a
    factor. *)
Lemma final_gcds_on_moduli (X : list Z) :
  Forall (fun n => n ≠ 0%Z) X ->
  exists R,
    final_gcds X (map (rem_square (lprod X)) X) = Ok R
    /\ length R = length X
    /\ forall i n, X !! i = Some n ->
         R !! i = Some (Z.gcd n (lprod (delete i X)))
         /\ (Z.gcd n (lprod (delete i X)) | n)%Z.
Proof.
  intros Hnz. set (RB := map (rem_square (lprod X)) X).
  assert (Hlen : length RB = length X) by apply length_map.
  destruct (for_upto_inv (gcds_upto X RB) (length X) (divide_and_gcd X) RB)
    as (R & HR & HRinv).
  - unfold gcds_upto. rewrite !take_0, drop_0. reflexivity.
  - intros i R Hi HR. destruct (lookup_lt_is_Some_2 X i Hi) as [n Hn].
    destruct (lookup_lt_is_Some_2 RB i ltac:(lia)) as [r Hr].
    exact (divide_and_gcd_step X RB i n r R Hlen Hn Hr
             (Forall_lookup_1 _ _ _ _ Hnz Hn) HR).
  - exists R. split; [exact HR |].
    unfold gcds_upto in HRinv. rewrite <- Hlen in HRinv at 2 3.
    rewrite !firstn_all, drop_all, app_nil_r in HRinv. subst R.
    split; [rewrite length_zip_with; lia |].
    intros i n Hn. split; [| apply Z.gcd_divide_l].
    rewrite lookup_zip_with, Hn. unfold RB. rewrite list_lookup_fmap, Hn.
    cbn [fmap option_fmap option_map mbind option_bind].
    f_equal. rewrite (lprod_delete X i n Hn).
    apply gcd_of_reduced. exact (Forall_lookup_1 _ _ _ _ Hnz Hn).
Qed.

(** * The concrete raw format keeps the contract *)

Lemma byte_of_N_to_N (n : N) :
  (n < 256)%N -> Byte.to_N (SignMagnitude.byte_of_N n) = n.
Proof.
  intros Hn. unfold SignMagnitude.byte_of_N.
  destruct (Byte.of_N n) as [b |] eqn:E.
  - simpl. apply Byte.to_of_N. exact E.
  - apply Byte.of_N_None_iff in E. lia.
Qed.

Lemma le_bytes_value (fuel : nat) (n : N) :
  (n < 2 ^ N.of_nat fuel)%N ->
  foldr (fun b acc => (256 * acc + Byte.to_N b)%N) 0%N (SignMagnitude.le_bytes fuel n) = n.
Proof.
  revert n. induction fuel as [| fuel IH]; intros n Hn.
  - simpl in *. lia.
  - cbn [SignMagnitude.le_bytes]. destruct (N.eqb_spec n 0) as [-> | Hnz]; [reflexivity |].
    cbn [foldr]. rewrite IH.
    + rewrite byte_of_N_to_N by (apply N.mod_lt; lia).
      pose proof (N.div_mod n 256 ltac:(lia)). lia.
    + rewrite Nat2N.inj_succ, N.pow_succ_r' in Hn.
      apply N.Div0.div_lt_upper_bound.
      assert (2 ^ N.of_nat fuel > 0)%N by (apply N.lt_gt, N.neq_0_lt_0, N.pow_nonzero; lia).
      lia.
Qed.

Lemma of_magnitude_magnitude (n : N) :
  SignMagnitude.of_magnitude (SignMagnitude.magnitude n) = n.
Proof.
  unfold SignMagnitude.of_magnitude, SignMagnitude.magnitude.
  rewrite <- fold_left_rev_right, rev_involutive.
  apply le_bytes_value. rewrite N2Nat.id. apply N.size_gt.
Qed.

Lemma sign_magnitude_round_trip : raw_round_trip sign_magnitude_io.
Proof.
  intros old z. cbn [mpz_out_raw mpz_inp_raw sign_magnitude_io].
  unfold SignMagnitude.out_raw. case_decide as Hneg;
    cbn [SignMagnitude.inp_raw fst]; rewrite of_magnitude_magnitude, N2Z.inj_abs_N; lia.
Qed.

(** * The claims about the remainders and the entry point *)

Section RemainderClaims.
Context {io : RawIO}.
Hypothesis raw_ok : raw_round_trip io.

(** With two or more moduli the tree has at least two levels. *)
Lemma tree_levels_many (X : list Z) :
  2 <= length X -> 2 <= length (tree_levels X).
Proof.
  intros HX. rewrite tree_levels_unfold_many by lia. cbn [length].
  pose proof (tree_levels_length_pos (next_level X)). lia.
Qed.

Lemma remainders_squares_ok (X : list Z) (d : gmap (nat * nat) (list byte)) :
  X ≠ [] -> Forall (fun n => n ≠ 0%Z) X ->
  remainders_squares (length (tree_levels X))
    (store_levels 0 (tree_levels X) (initial_world d))
  = Ok (map (rem_square (lprod X)) X).
Proof.
  intros HX Hnz. rewrite (remainders_squares_after_tree raw_ok X d HX).
  apply reduce_all_ok. assumption.
Qed.

(** C3, as the code has it.  For a non-empty input of non-zero moduli, after
    [product_tree] the single-pass variant returns a vector [R] of the
    length of the input in which [R[i]] is the remainder of the product of all
    the moduli by the square of modulus [i].  The remainder is GMP's truncating
    one; it is the mathematical [mod] whenever the product is not negative. *)
Theorem remainders_squares_spec (X : list Z) (d : gmap (nat * nat) (list byte)) :
  X ≠ [] -> Forall (fun n => n ≠ 0%Z) X ->
  let levels := fst (fst (product_tree X (initial_world d))) in
  let w := snd (product_tree X (initial_world d)) in
  exists R,
    remainders_squares levels w = Ok R
    /\ length R = length X
    /\ forall i n, X !! i = Some n ->
         R !! i = Some (Z.rem (lprod X) (Z.mul n n))
         /\ ((0 <= lprod X)%Z -> R !! i = Some ((lprod X) `mod` (Z.mul n n))%Z).
Proof.
  intros HX Hnz. cbv zeta. rewrite product_tree_spec. cbn [fst snd].
  exists (map (rem_square (lprod X)) X).
  split; [apply remainders_squares_ok; assumption |].
  split; [apply length_map |].
  intros i n Hn. rewrite list_lookup_fmap, Hn. cbn [fmap option_fmap option_map].
  split; [reflexivity |]. intros Hpos. unfold rem_square.
  pose proof (Forall_lookup_1 _ _ _ _ Hnz Hn) as Hnnz.
  pose proof (square_nonzero n Hnnz). pose proof (Z.square_nonneg n).
  rewrite Z.rem_mod_nonneg by lia. reflexivity.
Qed.

(** C9.  For a non-empty input, every access the fast variant makes into [R]
    at the parent index [i / 2] (and into the manifest) is in range, at the
    levels that end in an orphan as at the others: each level of the manifest
    has room for the parents of the level below; a pass over level [l] from
    remainders of the size of level [l + 1] ends with remainders of the size
    of level [l] or on a division by zero; and so does the whole run, which
    never stops out of range. *)
Theorem remainders_squares_fast_in_range (X : list Z) (d : gmap (nat * nat) (list byte)) :
  X ≠ [] ->
  let levels := fst (fst (product_tree X (initial_world d))) in
  let w := snd (product_tree X (initial_world d)) in
  (forall l m, S l < levels -> filesPerFloor w !! l = Some m ->
     exists m', filesPerFloor w !! S l = Some m' /\ forall i, i < m -> i / 2 < m')
  /\ (forall l R, S l < levels -> filesPerFloor w !! S l = Some (length R) ->
        (exists newR, partial_remainders l R w = Ok newR
                      /\ filesPerFloor w !! l = Some (length newR))
        \/ partial_remainders l R w = Fault DivisionByZero)
  /\ ((exists R, remainders_squares_fast levels w = Ok R /\ length R = length X)
      \/ remainders_squares_fast levels w = Fault DivisionByZero).
Proof.
  intros HX. cbv zeta. rewrite product_tree_spec. cbn [fst snd].
  assert (Hpair : forall l, S l < length (tree_levels X) ->
            exists L, tree_levels X !! l = Some L
                      /\ tree_levels X !! S l = Some (halve L)).
  { intros l Hl. destruct (lookup_lt_is_Some_2 _ _ Hl) as [Lup HLup].
    destruct (tree_levels_step X l Lup HLup) as (L & HL & _ & ->).
    exists L. rewrite <- next_level_halve. auto. }
  assert (Hman : forall l L, tree_levels X !! l = Some L ->
            filesPerFloor (store_levels 0 (tree_levels X) (initial_world d)) !! l
            = Some (length L)).
  { intros l L HL. rewrite store_levels_manifest.
    cbn [initial_world filesPerFloor app]. rewrite list_lookup_fmap, HL. reflexivity. }
  split; [| split].
  - intros l m Hl Hm. destruct (Hpair l Hl) as (L & HL & HLup).
    rewrite (Hman l L HL) in Hm. injection Hm as <-.
    exists (length (halve L)). split; [exact (Hman _ _ HLup) |].
    intros i Hi. apply halve_parent_in_range. assumption.
  - intros l R Hl HR. destruct (Hpair l Hl) as (L & HL & HLup).
    rewrite (Hman _ _ HLup) in HR. injection HR as HR.
    destruct (partial_remainders_safe raw_ok X d l L R HL (eq_sym HR))
      as [(newR & Hrun & Hlen) | Hrun]; [left | right; exact Hrun].
    exists newR. split; [exact Hrun |]. rewrite Hlen. exact (Hman l L HL).
  - rewrite (remainders_squares_fast_after_tree raw_ok X d HX).
    pose proof (tree_levels_root X HX) as Hroot.
    exact (descend_safe raw_ok X d _ [lprod X] [lprod X] Hroot eq_refl).
Qed.

Lemma remainders_squares_fast_ok (X : list Z) (d : gmap (nat * nat) (list byte)) :
  2 <= length X -> Forall (fun n => n ≠ 0%Z) X ->
  remainders_squares_fast (length (tree_levels X))
    (store_levels 0 (tree_levels X) (initial_world d))
  = Ok (map (rem_square (lprod X)) X).
Proof.
  intros Hlen Hnz. assert (HX : X ≠ []) by (intros ->; simpl in Hlen; lia).
  rewrite (remainders_squares_fast_after_tree raw_ok X d HX).
  rewrite (descend_ok raw_ok X d _ [lprod X] [lprod X]
             (tree_levels_root X HX) (carries_root _) Hnz).
  pose proof (tree_levels_many X Hlen).
  rewrite decide_False by lia. reflexivity.
Qed.

Lemma remainders_squares_fast_zero (X : list Z) (d : gmap (nat * nat) (list byte)) :
  2 <= length X -> Exists (fun n => n = 0%Z) X ->
  remainders_squares_fast (length (tree_levels X))
    (store_levels 0 (tree_levels X) (initial_world d))
  = Fault DivisionByZero.
Proof.
  intros Hlen Hz. assert (HX : X ≠ []) by (intros ->; simpl in Hlen; lia).
  rewrite (remainders_squares_fast_after_tree raw_ok X d HX).
  pose proof (tree_levels_many X Hlen) as Hmany.
  pose proof (tree_levels_root X HX) as Hroot.
  destruct (length (tree_levels X) - 1) as [| l] eqn:E; [lia |].
  exact (descend_zero raw_ok X d l [lprod X] [lprod X] Hroot eq_refl Hz).
Qed.

Lemma remainders_squares_fast_single (n : Z) (d : gmap (nat * nat) (list byte)) :
  remainders_squares_fast (length (tree_levels [n]))
    (store_levels 0 (tree_levels [n]) (initial_world d))
  = Ok [n].
Proof.
  rewrite (remainders_squares_fast_after_tree raw_ok [n] d) by discriminate.
  rewrite (tree_levels_unfold_few [n]) by (simpl; lia). cbn [length Nat.sub descend].
  unfold lprod. cbn [foldr]. rewrite Z.mul_1_r. reflexivity.
Qed.

(** C5, as the code has it.  After [product_tree] the two variants end the
    same way for every input of two or more moduli, and for a single modulus
    of absolute value above 1: with no zero modulus they both return the same
    vector [R], of one remainder per modulus; with a zero modulus they both
    stop on GMP's division by zero. *)
Theorem remainder_variants_agree (X : list Z) (d : gmap (nat * nat) (list byte)) :
  2 <= length X \/ (exists n, X = [n] /\ (1 < Z.abs n)%Z) ->
  let levels := fst (fst (product_tree X (initial_world d))) in
  let w := snd (product_tree X (initial_world d)) in
  remainders_squares_fast levels w = remainders_squares levels w
  /\ (Forall (fun n => n ≠ 0%Z) X ->
      exists R, remainders_squares levels w = Ok R /\ length R = length X)
  /\ (Exists (fun n => n = 0%Z) X ->
      remainders_squares levels w = Fault DivisionByZero
      /\ remainders_squares_fast levels w = Fault DivisionByZero).
Proof.
  intros Hdom. cbv zeta. rewrite product_tree_spec. cbn [fst snd].
  assert (HX : X ≠ []).
  { destruct Hdom as [Hlen | (n & -> & _)]; [| discriminate].
    intros ->. simpl in Hlen. lia. }
  split; [| split].
  - destruct Hdom as [Hlen | (n & -> & Hn)].
    + destruct (decide (Forall (fun n => n ≠ 0%Z) X)) as [Hnz | Hz].
      * rewrite remainders_squares_fast_ok, remainders_squares_ok by assumption.
        reflexivity.
      * assert (Hex : Exists (fun n => n = 0%Z) X).
        { apply not_Forall_Exists in Hz; [| intros y; apply _].
          eapply Exists_impl; [exact Hz |]. intros y Hy.
          destruct (decide (y = 0%Z)); [assumption | contradiction]. }
        rewrite remainders_squares_fast_zero by assumption.
        rewrite (remainders_squares_after_tree raw_ok X d HX).
        rewrite reduce_all_zero by assumption. reflexivity.
    + rewrite remainders_squares_fast_single.
      rewrite remainders_squares_ok; [| discriminate | repeat constructor; lia].
      cbn [map]. unfold rem_square, lprod. cbn [foldr]. rewrite Z.mul_1_r.
      do 2 f_equal. symmetry. apply Z.rem_small_iff; nia.
  - intros Hnz. exists (map (rem_square (lprod X)) X).
    split; [apply remainders_squares_ok; assumption | apply length_map].
  - intros Hz.
    assert (Hlen : 2 <= length X).
    { destruct Hdom as [Hlen | (n & -> & Hn)]; [exact Hlen |].
      apply Exists_cons in Hz as [-> | Hz]; [simpl in Hn; lia |].
      apply Exists_nil in Hz. contradiction. }
    split.
    + rewrite (remainders_squares_after_tree raw_ok X d HX).
      apply reduce_all_zero. exact Hz.
    + apply remainders_squares_fast_zero; assumption.
Qed.

(** With two or more non-zero moduli, [main] returns the remainders of part
    (B) twice: before and after its final loop. *)
Lemma main_many_moduli (X : list Z) (d : gmap (nat * nat) (list byte)) :
  2 <= length X -> Forall (fun n => n ≠ 0%Z) X ->
  main X d
  = Ok (map (rem_square (lprod X)) X,
        map (rem_square (lprod X)) X,
        compromised (map (rem_square (lprod X)) X)).
Proof.
  intros Hlen Hnz. assert (HX : X ≠ []) by (intros ->; simpl in Hlen; lia).
  unfold main. rewrite product_tree_spec.
  rewrite decide_True by lia.
  rewrite remainders_squares_ok by assumption. reflexivity.
Qed.

(** C1, what the code does.  With two or more (non-zero) moduli
    [product_tree] has emptied [input_moduli], so the final loop of [main]
    runs over no index: [R] after it is [R] after part (B), the remainders by
    the squares, with no division and no gcd applied. *)
Theorem main_skips_final_gcds (X : list Z) (d : gmap (nat * nat) (list byte)) :
  2 <= length X -> Forall (fun n => n ≠ 0%Z) X ->
  let input_moduli := snd (fst (product_tree X (initial_world d))) in
  let RB := map (rem_square (lprod X)) X in
  input_moduli = []
  /\ final_gcds input_moduli RB = Ok RB
  /\ main X d = Ok (RB, RB, compromised RB).
Proof.
  intros Hlen Hnz. cbv zeta. rewrite product_tree_spec. cbn [fst snd].
  rewrite decide_True by lia.
  split; [reflexivity |]. split; [reflexivity |].
  apply main_many_moduli; assumption.
Qed.

(** With a single non-zero modulus the vector is not emptied and the final
    loop does run: the result is 1 and nothing is counted, as the
    specification asks. *)
Lemma main_single_modulus (n : Z) (d : gmap (nat * nat) (list byte)) :
  n ≠ 0%Z ->
  main [n] d = Ok ([rem_square n n], [1%Z], 0).
Proof.
  intros Hn. unfold main. rewrite product_tree_spec.
  rewrite decide_False by (simpl; lia).
  rewrite remainders_squares_ok; [| discriminate | repeat constructor; assumption].
  rewrite bind_ok.
  destruct (final_gcds_on_moduli [n]) as (R & HR & Hlen & Hget);
    [repeat constructor; assumption |].
  rewrite HR, bind_ok. destruct (Hget 0 n eq_refl) as [H0 _].
  change (lprod (delete 0 [n])) with 1%Z in H0. rewrite Z.gcd_1_r in H0.
  destruct R as [| r [| ? ?]]; [discriminate | | simpl in Hlen; lia].
  injection H0 as ->. unfold lprod. cbn [map foldr]. rewrite Z.mul_1_r. reflexivity.
Qed.

(** C2, what the code does on scenario S1.  For the moduli 15 and 77 [R] is
    [30; 1155] after part (B) and is still [30; 1155] after the final loop,
    and the count printed is 2.  The loop of lines 53-56 run on the two
    moduli would give [1; 1], as the scenario expects. *)
Theorem main_scenario_S1 (d : gmap (nat * nat) (list byte)) :
  main [15; 77]%Z d = Ok ([30; 1155]%Z, [30; 1155]%Z, 2)
  /\ final_gcds [15; 77]%Z [30; 1155]%Z = Ok [1; 1]%Z.
Proof.
  split; [| reflexivity].
  rewrite main_many_moduli; [reflexivity | simpl; lia | repeat constructor; lia].
Qed.

End RemainderClaims.

(** * The claims on concrete runs

    The runs below use the concrete raw format and an empty directory. *)

(** C3 as stated fails on a zero modulus: the single-pass variant divides by
    the square of the modulus and stops on GMP's division by zero, so no [R]
    is produced. *)
Lemma remainders_squares_zero_modulus :
  remainders_squares (io := sign_magnitude_io)
    (fst (fst (product_tree (io := sign_magnitude_io) [0%Z] (initial_world ∅))))
    (snd (product_tree (io := sign_magnitude_io) [0%Z] (initial_world ∅)))
  = Fault DivisionByZero.
Proof. vm_compute. reflexivity. Qed.

(** C5 as stated fails on the single modulus 1: the single-pass variant
    returns 1 mod 1 = 0, the fast variant returns the root 1 unreduced. *)
Lemma remainder_variants_differ_on_one :
  remainders_squares (io := sign_magnitude_io)
    (fst (fst (product_tree (io := sign_magnitude_io) [1%Z] (initial_world ∅))))
    (snd (product_tree (io := sign_magnitude_io) [1%Z] (initial_world ∅)))
  = Ok [0%Z]
  /\ remainders_squares_fast (io := sign_magnitude_io)
       (fst (fst (product_tree (io := sign_magnitude_io) [1%Z] (initial_world ∅))))
       (snd (product_tree (io := sign_magnitude_io) [1%Z] (initial_world ∅)))
     = Ok [1%Z].
Proof. vm_compute. split; reflexivity. Qed.

(** C7 as stated fails when the manifest does not record the size of the
    sequence: in a fresh process the read indexes an empty manifest, and with
    a manifest entry of 1 only the first of two elements comes back.  It also
    fails on the empty sequence, where the closing [cout] of the reader
    indexes an empty vector. *)
Lemma read_level_follows_manifest :
  read_level_from_file (io := sign_magnitude_io) 0
    (write_level_to_file (io := sign_magnitude_io) 0 [5; 7]%Z (initial_world ∅))
  = Fault OutOfRange
  /\ read_level_from_file (io := sign_magnitude_io) 0
       (write_level_to_file (io := sign_magnitude_io) 0 [5; 7]%Z (World ∅ [1]))
     = Ok [5%Z]
  /\ read_level_from_file (io := sign_magnitude_io) 0
       (write_level_to_file (io := sign_magnitude_io) 0 [] (World ∅ [0]))
     = Fault OutOfRange.
Proof. vm_compute. repeat split; reflexivity. Qed.


(** The run of [main] on the moduli 15 and 77. *)
Lemma main_skips_final_gcds_witness :
  raw_round_trip sign_magnitude_io
  /\ 2 <= length [15; 77]%Z
  /\ Forall (fun n => n ≠ 0%Z) [15; 77]%Z
  /\ main (io := sign_magnitude_io) [15; 77]%Z ∅
     = Ok (map (rem_square (lprod [15; 77]%Z)) [15; 77]%Z,
           map (rem_square (lprod [15; 77]%Z)) [15; 77]%Z,
           compromised (map (rem_square (lprod [15; 77]%Z)) [15; 77]%Z)).
Proof.
  assert (Hlen : 2 <= length [15; 77]%Z) by (simpl; lia).
  assert (Hnz : Forall (fun n => n ≠ 0%Z) [15; 77]%Z) by (repeat constructor; lia).
  split; [exact sign_magnitude_round_trip |].
  split; [exact Hlen |]. split; [exact Hnz |].
  exact (proj2 (proj2 (main_skips_final_gcds sign_magnitude_round_trip
                         [15; 77]%Z ∅ Hlen Hnz))).
Defined.

(** Scenario S1 with the concrete raw format and an empty directory. *)
Lemma main_scenario_S1_witness :
  raw_round_trip sign_magnitude_io
  /\ main (io := sign_magnitude_io) [15; 77]%Z ∅ = Ok ([30; 1155]%Z, [30; 1155]%Z, 2)
  /\ final_gcds [15; 77]%Z [30; 1155]%Z = Ok [1; 1]%Z.
Proof.
  split; [exact sign_magnitude_round_trip |].
  exact (main_scenario_S1 sign_magnitude_round_trip ∅).
Defined.

(** The single-pass remainders of the moduli 15 and 77. *)
Lemma remainders_squares_spec_witness :
  raw_round_trip sign_magnitude_io
  /\ [15; 77]%Z ≠ []
  /\ Forall (fun n => n ≠ 0%Z) [15; 77]%Z
  /\ exists R,
       remainders_squares (io := sign_magnitude_io)
         (fst (fst (product_tree (io := sign_magnitude_io) [15; 77]%Z (initial_world ∅))))
         (snd (product_tree (io := sign_magnitude_io) [15; 77]%Z (initial_world ∅)))
       = Ok R
       /\ length R = length [15; 77]%Z
       /\ forall i n, [15; 77]%Z !! i = Some n ->
            R !! i = Some (Z.rem (lprod [15; 77]%Z) (Z.mul n n))
            /\ ((0 <= lprod [15; 77]%Z)%Z ->
                R !! i = Some ((lprod [15; 77]%Z) `mod` (Z.mul n n))%Z).
Proof.
  assert (Hne : [15; 77]%Z ≠ []) by discriminate.
  assert (Hnz : Forall (fun n => n ≠ 0%Z) [15; 77]%Z) by (repeat constructor; lia).
  split; [exact sign_magnitude_round_trip |].
  split; [exact Hne |]. split; [exact Hnz |].
  exact (remainders_squares_spec sign_magnitude_round_trip [15; 77]%Z ∅ Hne Hnz).
Defined.

(** The root of the tree of 6, 10 and 15. *)
Lemma product_tree_root_witness :
  raw_round_trip sign_magnitude_io
  /\ [6; 10; 15]%Z ≠ []
  /\ read_level_from_file (io := sign_magnitude_io)
       (fst (fst (product_tree (io := sign_magnitude_io) [6; 10; 15]%Z (initial_world ∅))) - 1)
       (snd (product_tree (io := sign_magnitude_io) [6; 10; 15]%Z (initial_world ∅)))
     = Ok [lprod [6; 10; 15]%Z].
Proof.
  assert (Hne : [6; 10; 15]%Z ≠ []) by discriminate.
  split; [exact sign_magnitude_round_trip |]. split; [exact Hne |].
  exact (proj1 (proj2 (product_tree_root sign_magnitude_round_trip [6; 10; 15]%Z ∅ Hne))).
Defined.

(** The two variants on the moduli 6, 10 and 15, and on the moduli 0 and 5,
    where both stop on the division by zero. *)
Lemma remainder_variants_agree_witness :
  raw_round_trip sign_magnitude_io
  /\ 2 <= length [6; 10; 15]%Z
  /\ remainders_squares_fast (io := sign_magnitude_io)
       (fst (fst (product_tree (io := sign_magnitude_io) [6; 10; 15]%Z (initial_world ∅))))
       (snd (product_tree (io := sign_magnitude_io) [6; 10; 15]%Z (initial_world ∅)))
     = remainders_squares (io := sign_magnitude_io)
         (fst (fst (product_tree (io := sign_magnitude_io) [6; 10; 15]%Z (initial_world ∅))))
         (snd (product_tree (io := sign_magnitude_io) [6; 10; 15]%Z (initial_world ∅)))
  /\ 2 <= length [0; 5]%Z
  /\ Exists (fun n => n = 0%Z) [0; 5]%Z
  /\ remainders_squares (io := sign_magnitude_io)
       (fst (fst (product_tree (io := sign_magnitude_io) [0; 5]%Z (initial_world ∅))))
       (snd (product_tree (io := sign_magnitude_io) [0; 5]%Z (initial_world ∅)))
     = Fault DivisionByZero
  /\ remainders_squares_fast (io := sign_magnitude_io)
       (fst (fst (product_tree (io := sign_magnitude_io) [0; 5]%Z (initial_world ∅))))
       (snd (product_tree (io := sign_magnitude_io) [0; 5]%Z (initial_world ∅)))
     = Fault DivisionByZero.
Proof.
  assert (Hlen : 2 <= length [6; 10; 15]%Z) by (simpl; lia).
  assert (Hlen0 : 2 <= length [0; 5]%Z) by (simpl; lia).
  assert (Hz : Exists (fun n => n = 0%Z) [0; 5]%Z)
    by (apply Exists_cons_hd; reflexivity).
  split; [exact sign_magnitude_round_trip |]. split; [exact Hlen |].
  split.
  { exact (proj1 (remainder_variants_agree sign_magnitude_round_trip
                    [6; 10; 15]%Z ∅ (or_introl Hlen))). }
  split; [exact Hlen0 |]. split; [exact Hz |].
  exact (proj2 (proj2 (remainder_variants_agree sign_magnitude_round_trip
                         [0; 5]%Z ∅ (or_introl Hlen0))) Hz).
Defined.

(** Level 1 of the tree of 6, 10 and 15, which carries the orphan 15. *)
Lemma product_tree_level_construction_witness :
  raw_round_trip sign_magnitude_io
  /\ 1 <= 1
  /\ 1 < fst (fst (product_tree (io := sign_magnitude_io) [6; 10; 15]%Z (initial_world ∅)))
  /\ exists Lprev Lcur,
       read_level_from_file (io := sign_magnitude_io) (1 - 1)
         (snd (product_tree (io := sign_magnitude_io) [6; 10; 15]%Z (initial_world ∅)))
       = Ok Lprev
       /\ read_level_from_file (io := sign_magnitude_io) 1
            (snd (product_tree (io := sign_magnitude_io) [6; 10; 15]%Z (initial_world ∅)))
          = Ok Lcur
       /\ length Lcur = (length Lprev + 1) / 2
       /\ (forall i, i < length Lcur ->
             Lcur !! i
             = if decide (2 * i + 1 < length Lprev)
               then Some (Z.mul (Lprev !!! (2 * i)) (Lprev !!! (2 * i + 1)))
               else Lprev !! (2 * i))
       /\ (length Lprev mod 2 = 1 ->
             Lcur !! (length Lcur - 1) = Lprev !! (length Lprev - 1)).
Proof.
  assert (H1 : 1 <= 1) by lia.
  assert (Hlev : 1 < fst (fst (product_tree (io := sign_magnitude_io)
                                 [6; 10; 15]%Z (initial_world ∅))))
    by (vm_compute; lia).
  split; [exact sign_magnitude_round_trip |]. split; [exact H1 |].
  split; [exact Hlev |].
  exact (product_tree_level_construction sign_magnitude_round_trip
           [6; 10; 15]%Z ∅ 1 H1 Hlev).
Defined.

(** Writing and reading back the level [5; 7] under a manifest entry of 2. *)
Lemma write_read_level_round_trip_witness :
  raw_round_trip sign_magnitude_io
  /\ [5; 7]%Z ≠ []
  /\ filesPerFloor (World ∅ [2]) !! 0 = Some (length [5; 7]%Z)
  /\ read_level_from_file (io := sign_magnitude_io) 0
       (write_level_to_file (io := sign_magnitude_io) 0 [5; 7]%Z (World ∅ [2]))
     = Ok [5; 7]%Z.
Proof.
  assert (Hne : [5; 7]%Z ≠ []) by discriminate.
  assert (Hsize : filesPerFloor (World ∅ [2]) !! 0 = Some (length [5; 7]%Z))
    by reflexivity.
  split; [exact sign_magnitude_round_trip |]. split; [exact Hne |].
  split; [exact Hsize |].
  exact (write_read_level_round_trip sign_magnitude_round_trip 0 [5; 7]%Z
           (World ∅ [2]) Hne Hsize).
Defined.

(** The fast variant on the moduli 6, 10 and 15. *)
Lemma remainders_squares_fast_in_range_witness :
  raw_round_trip sign_magnitude_io
  /\ [6; 10; 15]%Z ≠ []
  /\ ((exists R,
         remainders_squares_fast (io := sign_magnitude_io)
           (fst (fst (product_tree (io := sign_magnitude_io) [6; 10; 15]%Z (initial_world ∅))))
           (snd (product_tree (io := sign_magnitude_io) [6; 10; 15]%Z (initial_world ∅)))
         = Ok R /\ length R = length [6; 10; 15]%Z)
      \/ remainders_squares_fast (io := sign_magnitude_io)
           (fst (fst (product_tree (io := sign_magnitude_io) [6; 10; 15]%Z (initial_world ∅))))
           (snd (product_tree (io := sign_magnitude_io) [6; 10; 15]%Z (initial_world ∅)))
         = Fault DivisionByZero).
Proof.
  assert (Hne : [6; 10; 15]%Z ≠ []) by discriminate.
  split; [exact sign_magnitude_round_trip |]. split; [exact Hne |].
  exact (proj2 (proj2 (remainders_squares_fast_in_range sign_magnitude_round_trip
                         [6; 10; 15]%Z ∅ Hne))).
Defined.

(** ** The scenarios of the specification, run *)

(** S3: an odd input; the orphan 15 is carried to level 1, the root is 900 and
    both variants give the remainders 0, 0, 0. *)
Example scenario_S3 :
  let run := product_tree (io := sign_magnitude_io) [6; 10; 15]%Z (initial_world ∅) in
  fst (fst run) = 3
  /\ filesPerFloor (snd run) = [3; 2; 1]
  /\ read_level_from_file (io := sign_magnitude_io) 0 (snd run) = Ok [6; 10; 15]%Z
  /\ read_level_from_file (io := sign_magnitude_io) 1 (snd run) = Ok [60; 15]%Z
  /\ read_level_from_file (io := sign_magnitude_io) 2 (snd run) = Ok [900%Z]
  /\ remainders_squares (io := sign_magnitude_io) 3 (snd run) = Ok [0; 0; 0]%Z
  /\ remainders_squares_fast (io := sign_magnitude_io) 3 (snd run) = Ok [0; 0; 0]%Z.
Proof. vm_compute. repeat split; reflexivity. Qed.

(** S2: two moduli that share the factor 3.  The count printed is 2, as the
    scenario expects, but [R] is left at the remainders 90 and 315. *)
Example scenario_S2 :
  main (io := sign_magnitude_io) [15; 21]%Z ∅ = Ok ([90; 315]%Z, [90; 315]%Z, 2)
  /\ final_gcds [15; 21]%Z [90; 315]%Z = Ok [3; 3]%Z.
Proof. vm_compute. split; reflexivity. Qed.

(** S4: a single modulus; one level, and the final loop does run. *)
Example scenario_S4 :
  fst (fst (product_tree (io := sign_magnitude_io) [7%Z] (initial_world ∅))) = 1
  /\ main (io := sign_magnitude_io) [7%Z] ∅ = Ok ([7%Z], [1%Z], 0).
Proof. vm_compute. split; reflexivity. Qed.

(** * Further properties of the code *)

(** ** The shape of the tree *)

Lemma log2_up_halve (n : nat) :
  1 < n -> Nat.log2_up n = S (Nat.log2_up ((n + 1) / 2)).
Proof.
  intros Hn. set (m := (n + 1) / 2).
  pose proof (Nat.div_mod_eq (n + 1) 2) as Hdm.
  pose proof (Nat.mod_upper_bound (n + 1) 2 ltac:(lia)) as Hr.
  fold m in Hdm.
  destruct (decide (m = 1)) as [Hm | Hm].
  - rewrite Hm, Nat.log2_up_1. assert (n = 2) as -> by lia. apply Nat.log2_up_2.
  - assert (Hm1 : 1 < m) by lia.
    pose proof (Nat.log2_up_spec m Hm1) as [Hlo Hhi].
    pose proof (Nat.log2_up_pos m Hm1) as Hpos.
    apply Nat.log2_up_unique; [lia |]. cbn [Nat.pred].
    destruct (Nat.log2_up m) as [| b]; [lia |].
    cbn [Nat.pred] in Hlo. rewrite !Nat.pow_succ_r' in *. lia.
Qed.

Lemma tree_levels_count (X : list Z) :
  X ≠ [] -> length (tree_levels X) = S (Nat.log2_up (length X)).
Proof.
  funelim (tree_levels X); intros Hne.
  - cbn [length]. f_equal.
    rewrite (log2_up_halve (length current_level)) by assumption.
    rewrite <- next_level_length.
    match goal with IH : _ -> length (tree_levels _) = _ |- _ => apply IH end.
    intros E. apply (f_equal length) in E. rewrite next_level_length in E.
    cbn [length] in E.
    pose proof (Nat.div_mod_eq (length current_level + 1) 2).
    pose proof (Nat.mod_upper_bound (length current_level + 1) 2 ltac:(lia)). lia.
  - destruct current_level as [| a [| b rest]]; [contradiction | reflexivity |].
    cbn [length] in *. lia.
Qed.

(** The sizes of the levels: the input's, then halved, rounding up, while
    above 1. *)
Lemma tree_levels_sizes (X : list Z) (l : nat) (L : list Z) :
  tree_levels X !! l = Some L ->
  length L = (length X + 2 ^ l - 1) / 2 ^ l.
Proof.
  revert L. induction l as [| l IH]; intros L HL.
  - rewrite tree_levels_lookup_0 in HL. injection HL as <-.
    cbn [Nat.pow]. rewrite Nat.div_1_r. lia.
  - destruct (tree_levels_step X l L HL) as (L0 & HL0 & _ & ->).
    rewrite next_level_length, (IH L0 HL0).
    assert (Hpow : 2 ^ l ≠ 0) by (apply Nat.pow_nonzero; lia).
    rewrite Nat.pow_succ_r'.
    replace (length X + 2 * 2 ^ l - 1) with (length X + 2 ^ l - 1 + 1 * 2 ^ l) by lia.
    rewrite (Nat.mul_comm 2 (2 ^ l)), <- Nat.Div0.div_div.
    rewrite Nat.div_add by assumption. reflexivity.
Qed.

Lemma lprod_app (u v : list Z) : lprod (u ++ v) = Z.mul (lprod u) (lprod v).
Proof.
  unfold lprod. induction u as [| a u IH]; cbn [app foldr].
  - destruct (foldr Z.mul 1%Z v); reflexivity.
  - rewrite IH. apply Z.mul_assoc.
Qed.

(** Node [i] of level [l] is the product of the leaves [i * 2^l] to
    [(i + 1) * 2^l - 1], as far as the input goes. *)
Lemma tree_levels_blocks (X : list Z) (l i : nat) (L : list Z) (y : Z) :
  tree_levels X !! l = Some L -> L !! i = Some y ->
  y = lprod (take (2 ^ l) (drop (i * 2 ^ l) X)).
Proof.
  revert i L y. induction l as [| l IH]; intros i L y HL Hy.
  - rewrite tree_levels_lookup_0 in HL. injection HL as <-.
    cbn [Nat.pow]. rewrite Nat.mul_1_r, (drop_S _ _ _ Hy). cbn [take].
    rewrite take_0. unfold lprod. cbn [foldr]. lia.
  - destruct (tree_levels_step X l L HL) as (L0 & HL0 & _ & ->).
    rewrite next_level_halve, halve_lookup in Hy.
    assert (Hsplit : take (2 ^ S l) (drop (i * 2 ^ S l) X)
                     = take (2 ^ l) (drop (2 * i * 2 ^ l) X)
                       ++ take (2 ^ l) (drop ((2 * i + 1) * 2 ^ l) X)).
    { rewrite Nat.pow_succ_r'.
      replace (2 * 2 ^ l) with (2 ^ l + 2 ^ l) by lia.
      rewrite <- take_take_drop, drop_drop. do 3 f_equal; lia. }
    rewrite Hsplit, lprod_app.
    case_decide as Hpair.
    + injection Hy as <-.
      destruct (lookup_lt_is_Some_2 L0 (2 * i) ltac:(lia)) as [a Ha].
      destruct (lookup_lt_is_Some_2 L0 (2 * i + 1) Hpair) as [b Hb].
      rewrite (list_lookup_total_correct _ _ _ Ha), (list_lookup_total_correct _ _ _ Hb).
      rewrite (IH _ _ _ HL0 Ha), (IH _ _ _ HL0 Hb). reflexivity.
    + rewrite (IH _ _ _ HL0 Hy).
      assert (Hend : length X <= (2 * i + 1) * 2 ^ l).
      { pose proof (tree_levels_sizes X l L0 HL0) as Hsz.
        assert (Hpow : 2 ^ l ≠ 0) by (apply Nat.pow_nonzero; lia).
        destruct (decide (length X <= (2 * i + 1) * 2 ^ l)) as [Hle | Hgt];
          [assumption | exfalso].
        assert (2 * i + 1 + 1 <= (length X + 2 ^ l - 1) / 2 ^ l); [| lia].
        apply Nat.div_le_lower_bound; [assumption | lia]. }
      rewrite (drop_ge X ((2 * i + 1) * 2 ^ l)) by assumption.
      rewrite take_nil. unfold lprod at 3. cbn [foldr]. lia.
Qed.

Section TreeShape.
Context {io : RawIO}.

(** X1.  For a non-empty input of [k] moduli [product_tree] returns
    [ceil(log2 k) + 1] levels, whatever the state it starts in. *)
Theorem product_tree_level_count (X : list Z) (w : world) :
  X ≠ [] ->
  fst (fst (product_tree X w)) = S (Nat.log2_up (length X)).
Proof.
  intros HX. rewrite product_tree_spec. cbn [fst]. apply tree_levels_count. assumption.
Qed.

(** X2.  [product_tree] appends to the manifest and never rewrites it: the
    entries it finds stay, followed by one entry per level.  The first new
    entry is the size of the input; each next one is the previous one halved,
    rounding up; every entry but the last exceeds 1 and the last does not. *)
Theorem product_tree_manifest (X : list Z) (w : world) :
  let levels := fst (fst (product_tree X w)) in
  let w' := snd (product_tree X w) in
  exists sizes,
    filesPerFloor w' = filesPerFloor w ++ sizes
    /\ length sizes = levels
    /\ sizes !! 0 = Some (length X)
    /\ (forall l m, S l < levels -> sizes !! l = Some m ->
          1 < m /\ sizes !! S l = Some ((m + 1) / 2))
    /\ (forall m, sizes !! (levels - 1) = Some m -> m <= 1).
Proof.
  cbv zeta. rewrite product_tree_spec. cbn [fst snd].
  exists (map length (tree_levels X)).
  split; [apply store_levels_manifest |].
  split; [apply length_map |].
  split; [rewrite list_lookup_fmap, tree_levels_lookup_0; reflexivity |].
  split.
  - intros l m Hl Hm. destruct (lookup_lt_is_Some_2 _ _ Hl) as [Lup HLup].
    destruct (tree_levels_step X l Lup HLup) as (L & HL & Hmany & ->).
    rewrite list_lookup_fmap, HL in Hm. injection Hm as <-.
    split; [assumption |].
    rewrite list_lookup_fmap, HLup. cbn. rewrite next_level_length. reflexivity.
  - intros m Hm. destruct (tree_levels_last X) as (top & Htop & Hlen).
    rewrite list_lookup_fmap, Htop in Hm. injection Hm as <-. assumption.
Qed.

(** The files after the levels [Ls] are stored from level [l0] on. *)
Lemma store_levels_disk (Ls : list (list Z)) (l0 : nat) (w0 : world) (k i : nat) :
  disk (store_levels l0 Ls w0) !! (l0 + k, i)
  = match Ls !! k with
    | Some L => if decide (i < length L)
                then Some (mpz_out_raw (L !!! i))
                else disk w0 !! (l0 + k, i)
    | None => disk w0 !! (l0 + k, i)
    end.
Proof.
  revert l0 w0 k. induction Ls as [| L0 Ls IH]; intros l0 w0 k; [reflexivity |].
  cbn [store_levels]. destruct k as [| k].
  - rewrite Nat.add_0_r, store_levels_below by lia.
    rewrite write_level_lookup. cbn [lookup list_lookup disk].
    destruct (decide (i < length L0)).
    + rewrite decide_True by auto. reflexivity.
    + rewrite decide_False by tauto. reflexivity.
  - replace (l0 + S k) with (l0 + 1 + k) by lia. rewrite IH.
    cbn [lookup list_lookup]. rewrite write_level_lookup.
    rewrite decide_False by lia. reflexivity.
Qed.

Section TreeShapeRoundTrip.
Hypothesis raw_ok : raw_round_trip io.

(** X3.  After [product_tree] on a non-empty input, in a process that starts
    with an empty manifest, reading level 0 back gives the input moduli, in
    their order. *)
Theorem product_tree_keeps_leaves (X : list Z) (d : gmap (nat * nat) (list byte)) :
  X ≠ [] ->
  read_level_from_file 0 (snd (product_tree X (initial_world d))) = Ok X.
Proof.
  intros HX. rewrite product_tree_spec. cbn [snd].
  apply read_tree_level; [assumption.. | apply tree_levels_lookup_0].
Qed.

(** X4.  After [product_tree] on a non-empty input every level [l] below the
    number of levels reads back as [ceil(k / 2^l)] nodes, and node [i] is the
    product of the input moduli [i * 2^l, ..., (i + 1) * 2^l - 1] (as far as
    the input goes); so the nodes of a level multiply to the product of the
    input. *)
Theorem product_tree_nodes (X : list Z) (d : gmap (nat * nat) (list byte)) (l : nat) :
  X ≠ [] ->
  l < fst (fst (product_tree X (initial_world d))) ->
  exists L,
    read_level_from_file l (snd (product_tree X (initial_world d))) = Ok L
    /\ length L = (length X + 2 ^ l - 1) / 2 ^ l
    /\ (forall i y, L !! i = Some y ->
          y = lprod (take (2 ^ l) (drop (i * 2 ^ l) X)))
    /\ lprod L = lprod X.
Proof.
  rewrite product_tree_spec. cbn [fst snd]. intros HX Hl.
  destruct (lookup_lt_is_Some_2 _ _ Hl) as [L HL]. exists L.
  split; [apply read_tree_level; assumption |].
  split; [exact (tree_levels_sizes X l L HL) |].
  split; [intros i y Hy; exact (tree_levels_blocks X l i L y HL Hy) |].
  exact (tree_levels_lprod X l L HL).
Qed.

(** X5.  Whatever state it starts in, [product_tree] writes the files
    [(l, i)] of its levels ([l] below the number of levels, [i] below
    [ceil(k / 2^l)]), each with the record of the product of the moduli
    [i * 2^l, ..., (i + 1) * 2^l - 1], and no other file: every other file of
    the directory, a stale file of a larger earlier tree included, keeps its
    content. *)
Theorem product_tree_files (X : list Z) (w : world) (l i : nat) :
  let levels := fst (fst (product_tree X w)) in
  let w' := snd (product_tree X w) in
  (l < levels /\ i < (length X + 2 ^ l - 1) / 2 ^ l ->
     read_variable_from_file l i w'
     = Ok (lprod (take (2 ^ l) (drop (i * 2 ^ l) X))))
  /\ (¬ (l < levels /\ i < (length X + 2 ^ l - 1) / 2 ^ l) ->
      disk w' !! (l, i) = disk w !! (l, i)).
Proof.
  cbv zeta. rewrite product_tree_spec. cbn [fst snd].
  pose proof (store_levels_disk (tree_levels X) 0 w l i) as Hdisk.
  cbn [Nat.add] in Hdisk. split.
  - intros [Hl Hi]. destruct (lookup_lt_is_Some_2 _ _ Hl) as [L HL].
    rewrite <- (tree_levels_sizes X l L HL) in Hi.
    destruct (lookup_lt_is_Some_2 L i Hi) as [y Hy].
    rewrite (read_tree_variable raw_ok X w l i L y HL Hy).
    rewrite (tree_levels_blocks X l i L y HL Hy). reflexivity.
  - intros Hout. rewrite Hdisk.
    destruct (tree_levels X !! l) as [L |] eqn:HL; [| reflexivity].
    rewrite decide_False; [reflexivity |].
    intros Hi. apply Hout. split; [exact (lookup_lt_Some _ _ _ HL) |].
    rewrite <- (tree_levels_sizes X l L HL). assumption.
Qed.

End TreeShapeRoundTrip.
End TreeShape.

(** ** The level store, one element at a time *)

Section StoreElements.
Context {io : RawIO}.
Hypothesis raw_ok : raw_round_trip io.

(** X6.  [write_level_to_file (l, X)] leaves the manifest as it is, makes
    every element of [X] readable at its index with
    [read_variable_from_file] (which does not consult the manifest), and
    changes no file but those of level [l] with an index below the size of
    [X]: files of the level from that index on are kept. *)
Theorem write_level_to_file_effect (l : nat) (X : list Z) (w : world) :
  let w' := write_level_to_file l X w in
  filesPerFloor w' = filesPerFloor w
  /\ (forall i x, X !! i = Some x -> read_variable_from_file l i w' = Ok x)
  /\ (forall l' i, ¬ (l' = l /\ i < length X) ->
        disk w' !! (l', i) = disk w !! (l', i)).
Proof.
  cbv zeta. split; [reflexivity |]. split.
  - intros i x Hx. apply (read_variable_written raw_ok).
    rewrite write_level_lookup.
    rewrite decide_True by (split; [reflexivity | exact (lookup_lt_Some _ _ _ Hx)]).
    rewrite (list_lookup_total_correct _ _ _ Hx). reflexivity.
  - intros l' i Hout. rewrite write_level_lookup.
    rewrite decide_False by assumption. reflexivity.
Qed.

End StoreElements.

(** ** The count of compromised moduli *)

Lemma compromised_upto (R : list Z) (n : nat) :
  n <= length R ->
  loop_upto n (fun i c => if decide (R !!! i ≠ 1%Z) then c + 1 else c) 0
  = length (filter (fun r => r ≠ 1%Z) (take n R)).
Proof.
  induction n as [| n IH]; intros Hn; cbn [loop_upto].
  - rewrite take_0. reflexivity.
  - rewrite IH by lia.
    destruct (lookup_lt_is_Some_2 R n ltac:(lia)) as [x Hx].
    rewrite (take_S_r R n x Hx), filter_app, length_app.
    rewrite (list_lookup_total_correct _ _ _ Hx).
    destruct (decide (x ≠ 1%Z)) as [Hne | Heq].
    + rewrite filter_cons_True by assumption. reflexivity.
    + rewrite filter_cons_False by assumption. simpl. lia.
Qed.

Lemma compromised_filter (R : list Z) :
  compromised R = length (filter (fun r => r ≠ 1%Z) R).
Proof.
  unfold compromised. rewrite compromised_upto by lia.
  rewrite firstn_all. reflexivity.
Qed.


(** X7.  The count [main] prints is the number of entries of [R] that differ
    from 1: it is at most the size of [R], it is 0 exactly when every entry
    is 1, and it is the size of [R] exactly when no entry is 1. *)
Theorem compromised_counts (R : list Z) :
  compromised R = length (filter (fun r => r ≠ 1%Z) R)
  /\ compromised R <= length R
  /\ (compromised R = 0 <-> Forall (fun r => r = 1%Z) R)
  /\ (compromised R = length R <-> Forall (fun r => r ≠ 1%Z) R).
Proof.
  rewrite compromised_filter. split; [reflexivity |].
  induction R as [| r R (Hle & Hzero & Hall)].
  - repeat split; intros; try constructor; reflexivity.
  - destruct (decide (r ≠ 1%Z)) as [Hne | Heq].
    + rewrite filter_cons_True by assumption. cbn [length].
      split; [lia |]. split.
      * split; [lia |]. intros HF. apply Forall_cons in HF as [Hr _]. contradiction.
      * rewrite Forall_cons, <- Hall. split; [auto with lia | intros [_ ->]; reflexivity].
    + rewrite filter_cons_False by assumption. cbn [length].
      assert (r = 1%Z) as -> by (destruct (decide (r = 1%Z)); [assumption | contradiction]).
      split; [lia |]. split.
      * rewrite Forall_cons, <- Hzero. tauto.
      * split; [lia |]. intros HF. apply Forall_cons in HF as [Hr _]. contradiction.
Qed.

(** ** The final loop on arbitrary vectors *)

Lemma divide_and_gcd_in_range (M R0 : list Z) (i : nat) (m r : Z) (R : list Z) :
  M !! i = Some m -> R0 !! i = Some r -> m ≠ 0%Z ->
  gcds_upto M R0 i R ->
  exists R', divide_and_gcd M i R = Ok R' /\ gcds_upto M R0 (S i) R'.
Proof.
  intros Hm Hr Hnz ->.
  pose proof (lookup_lt_Some _ _ _ Hm) as Hi.
  pose proof (lookup_lt_Some _ _ _ Hr) as Hi'.
  set (f := fun n r : Z => Z.gcd (Z.quot r n) n).
  assert (Hpre : length (zip_with f (take i M) (take i R0)) = i).
  { rewrite length_zip_with, !length_take. lia. }
  unfold divide_and_gcd. rewrite (drop_S R0 r i Hr).
  rewrite (at_index_ok _ i r) by (rewrite lookup_app_r by lia;
    rewrite Hpre, Nat.sub_diag; reflexivity).
  rewrite bind_ok, (list_lookup_total_correct _ _ _ Hm), mpz_quot_ok by assumption.
  rewrite bind_ok. cbv zeta.
  rewrite insert_app_r_alt by lia. rewrite Hpre, Nat.sub_diag.
  cbn [list_insert insert].
  rewrite lookup_total_app_r by lia. rewrite Hpre, Nat.sub_diag.
  cbn [lookup_total list_lookup_total].
  rewrite insert_app_r_alt by lia. rewrite Hpre, Nat.sub_diag.
  cbn [list_insert insert].
  eexists. split; [reflexivity |]. unfold gcds_upto.
  rewrite (take_S_r M i m Hm), (take_S_r R0 i r Hr).
  rewrite zip_with_app by (rewrite !length_take; lia).
  rewrite <- app_assoc. reflexivity.
Qed.

(** X8.  The final loop of [main] on any vectors, for non-zero moduli.  When
    [R] is at least as long as [input_moduli], every slot [i] of [R] below the
    size of [input_moduli] becomes [gcd (R[i] / input_moduli[i],
    input_moduli[i])], a non-negative divisor of the modulus, and the slots
    from that size on are left alone.  When [R] is shorter, the loop indexes
    [R] out of range. *)
Theorem final_gcds_effect (M R : list Z) :
  Forall (fun m => m ≠ 0%Z) M ->
  (length M <= length R ->
     exists R',
       final_gcds M R = Ok R'
       /\ length R' = length R
       /\ (forall i m r, M !! i = Some m -> R !! i = Some r ->
             R' !! i = Some (Z.gcd (Z.quot r m) m)
             /\ (Z.gcd (Z.quot r m) m | m)%Z
             /\ (0 <= Z.gcd (Z.quot r m) m)%Z)
       /\ (forall i, length M <= i -> R' !! i = R !! i))
  /\ (length R < length M -> final_gcds M R = Fault OutOfRange).
Proof.
  intros Hnz. split.
  - intros Hlen.
    destruct (for_upto_inv (gcds_upto M R) (length M) (divide_and_gcd M) R)
      as (R' & HR' & Hinv).
    + unfold gcds_upto. rewrite !take_0, drop_0. reflexivity.
    + intros i s Hi Hs. destruct (lookup_lt_is_Some_2 M i Hi) as [m Hm].
      destruct (lookup_lt_is_Some_2 R i ltac:(lia)) as [r Hr].
      exact (divide_and_gcd_in_range M R i m r s Hm Hr
               (Forall_lookup_1 _ _ _ _ Hnz Hm) Hs).
    + exists R'. split; [exact HR' |]. unfold gcds_upto in Hinv.
      set (f := fun n r : Z => Z.gcd (Z.quot r n) n) in *.
      assert (Hpre : length (zip_with f (take (length M) M) (take (length M) R))
                     = length M).
      { rewrite length_zip_with, !length_take. lia. }
      subst R'. split; [| split].
      * rewrite length_app, Hpre, length_drop. lia.
      * intros i m r Hm Hr. pose proof (lookup_lt_Some _ _ _ Hm) as Hi.
        split; [| split; [apply Z.gcd_divide_r | apply Z.gcd_nonneg]].
        rewrite lookup_app_l by lia.
        rewrite lookup_zip_with, !lookup_take_lt, Hm, Hr by assumption.
        reflexivity.
      * intros i Hi. rewrite lookup_app_r by lia.
        rewrite Hpre, lookup_drop. f_equal. lia.
  - intros Hshort.
    apply (for_upto_fault_at (fun _ s => length s = length R) OutOfRange
             (length M) (length R)); [assumption | reflexivity | |].
    + intros i s Hi Hs. unfold divide_and_gcd, at_index.
      destruct (s !! i) as [r |] eqn:Hr; [left | right; reflexivity].
      destruct (lookup_lt_is_Some_2 M i Hi) as [m Hm].
      rewrite bind_ok, (list_lookup_total_correct _ _ _ Hm).
      rewrite mpz_quot_ok by exact (Forall_lookup_1 _ _ _ _ Hnz Hm).
      rewrite bind_ok. eexists. split; [reflexivity |].
      rewrite !length_insert. assumption.
    + intros s Hs. unfold divide_and_gcd, at_index.
      rewrite (lookup_ge_None_2 s (length R)) by lia. reflexivity.
Qed.

(** X9.  Run on the remainders of part (B) and on the moduli themselves
    (all non-zero), the final loop of [main] leaves in slot [i] the gcd of
    modulus [i] with the product of the other moduli: a common divisor of the
    two, and the count that follows is the number of moduli for which it is
    not 1. *)
Theorem final_gcds_finds_shared_factors (X : list Z) :
  Forall (fun n => n ≠ 0%Z) X ->
  exists R,
    final_gcds X (map (rem_square (lprod X)) X) = Ok R
    /\ length R = length X
    /\ (forall i n, X !! i = Some n ->
          R !! i = Some (Z.gcd n (lprod (delete i X)))
          /\ (Z.gcd n (lprod (delete i X)) | n)%Z
          /\ (Z.gcd n (lprod (delete i X)) | lprod (delete i X))%Z)
    /\ compromised R = length (filter (fun g => g ≠ 1%Z) R).
Proof.
  intros Hnz. destruct (final_gcds_on_moduli X Hnz) as (R & HR & Hlen & Hget).
  exists R. split; [exact HR |]. split; [exact Hlen |]. split.
  - intros i n Hn. destruct (Hget i n Hn) as [Hi Hdiv].
    split; [exact Hi |]. split; [exact Hdiv | apply Z.gcd_divide_r].
  - apply compromised_filter.
Qed.

(** ** The remainders, more closely *)

(** A remainder by the square of a modulus is the modulus times the remainder
    of the product of the others by the modulus. *)
Lemma rem_square_multiple (X : list Z) (i : nat) (n : Z) :
  X !! i = Some n -> n ≠ 0%Z ->
  rem_square (lprod X) n = Z.mul n (Z.rem (lprod (delete i X)) n).
Proof.
  intros Hn Hnz. unfold rem_square. rewrite (lprod_delete X i n Hn).
  apply Z.mul_rem_distr_l; assumption.
Qed.


Section RemainderExtras.
Context {io : RawIO}.
Hypothesis raw_ok : raw_round_trip io.

(** X10.  After [product_tree] on a non-empty input of non-zero moduli, each
    remainder [R[i]] that [remainders_squares] returns is modulus [i] times
    the remainder of the product of the other moduli by modulus [i]: the
    modulus divides it, the division of the final loop is exact, and its
    absolute value is below the square of the modulus. *)
Theorem remainders_squares_multiples (X : list Z) (d : gmap (nat * nat) (list byte)) :
  X ≠ [] -> Forall (fun n => n ≠ 0%Z) X ->
  exists R,
    remainders_squares (fst (fst (product_tree X (initial_world d))))
      (snd (product_tree X (initial_world d)))
    = Ok R
    /\ forall i n, X !! i = Some n ->
         exists r, R !! i = Some r
           /\ r = Z.mul n (Z.rem (lprod (delete i X)) n)
           /\ (n | r)%Z
           /\ Z.quot r n = Z.rem (lprod (delete i X)) n
           /\ (Z.abs r < Z.mul n n)%Z.
Proof.
  intros HX Hnz. rewrite product_tree_spec. cbn [fst snd].
  rewrite (remainders_squares_ok raw_ok X d HX Hnz). eexists. split; [reflexivity |].
  intros i n Hn. pose proof (Forall_lookup_1 _ _ _ _ Hnz Hn) as Hnnz.
  exists (rem_square (lprod X) n). split; [rewrite list_lookup_fmap, Hn; reflexivity |].
  split; [exact (rem_square_multiple X i n Hn Hnnz) |].
  split; [rewrite (rem_square_multiple X i n Hn Hnnz); apply Z.divide_factor_l |].
  split.
  - rewrite (rem_square_multiple X i n Hn Hnnz), Z.mul_comm.
    apply Z.quot_mul. assumption.
  - unfold rem_square. pose proof (square_nonzero n Hnnz) as Hsq.
    pose proof (Z.rem_bound_abs (lprod X) (Z.mul n n) Hsq).
    pose proof (Z.square_nonneg n). lia.
Qed.

(** X11.  After [product_tree] on two or more non-zero moduli, the fast
    variant returns one remainder per modulus, and [R[i]] is the (truncating)
    remainder of the product of all the moduli by the square of modulus
    [i]. *)
Theorem remainders_squares_fast_spec (X : list Z) (d : gmap (nat * nat) (list byte)) :
  2 <= length X -> Forall (fun n => n ≠ 0%Z) X ->
  exists R,
    remainders_squares_fast (fst (fst (product_tree X (initial_world d))))
      (snd (product_tree X (initial_world d)))
    = Ok R
    /\ length R = length X
    /\ forall i n, X !! i = Some n ->
         R !! i = Some (Z.rem (lprod X) (Z.mul n n)).
Proof.
  intros Hlen Hnz. rewrite product_tree_spec. cbn [fst snd].
  rewrite (remainders_squares_fast_ok raw_ok X d Hlen Hnz).
  eexists. split; [reflexivity |]. split; [apply length_map |].
  intros i n Hn. rewrite list_lookup_fmap, Hn. reflexivity.
Qed.

(** X12.  The invariant of the descent of [remainders_squares_fast], after
    [product_tree] on non-zero moduli: a pass over level [l] that starts from
    the remainders of the root by the squares of the nodes of level [l + 1]
    (or from the root itself, when level [l + 1] is the top) ends with the
    remainders of the root by the squares of the nodes of level [l]. *)
Theorem partial_remainders_invariant (X : list Z) (d : gmap (nat * nat) (list byte))
    (l : nat) :
  Forall (fun n => n ≠ 0%Z) X ->
  let levels := fst (fst (product_tree X (initial_world d))) in
  let w := snd (product_tree X (initial_world d)) in
  S l < levels ->
  exists L Lup,
    read_level_from_file l w = Ok L
    /\ read_level_from_file (S l) w = Ok Lup
    /\ partial_remainders l (map (rem_square (lprod X)) Lup) w
       = Ok (map (rem_square (lprod X)) L)
    /\ (S (S l) = levels ->
        Lup = [lprod X]
        /\ partial_remainders l [lprod X] w = Ok (map (rem_square (lprod X)) L)).
Proof.
  intros Hnz. cbv zeta. rewrite product_tree_spec. cbn [fst snd]. intros Hl.
  destruct (lookup_lt_is_Some_2 _ _ Hl) as [Lup HLup].
  destruct (tree_levels_step X l Lup HLup) as (L & HL & Hmany & ->).
  assert (HX : X ≠ []).
  { intros ->. rewrite tree_levels_unfold_few in HLup by (simpl; lia). discriminate. }
  exists L, (next_level L).
  split; [apply read_tree_level; assumption |].
  split; [apply read_tree_level; assumption |].
  pose proof (tree_levels_nonzero X l L Hnz HL) as HLnz.
  pose proof (tree_levels_nonzero X (S l) _ Hnz HLup) as HLupnz.
  split.
  - apply (partial_remainders_ok raw_ok X d l L); [assumption | | assumption].
    rewrite <- next_level_halve. apply carries_reduced. assumption.
  - intros Htop. pose proof (tree_levels_root X HX) as Hroot.
    rewrite <- Htop in Hroot. replace (S (S l) - 1) with (S l) in Hroot by lia.
    rewrite HLup in Hroot. injection Hroot as Hroot. split; [exact Hroot |].
    apply (partial_remainders_ok raw_ok X d l L); [assumption | | assumption].
    rewrite <- next_level_halve, Hroot. apply carries_root.
Qed.

(** X13.  [main] on a non-empty input that holds a zero modulus stops on GMP's
    division by zero (in part (B)) and prints no count. *)
Theorem main_zero_modulus (X : list Z) (d : gmap (nat * nat) (list byte)) :
  X ≠ [] -> Exists (fun n => n = 0%Z) X ->
  main X d = Fault DivisionByZero.
Proof.
  intros HX Hz. unfold main. rewrite product_tree_spec.
  rewrite (remainders_squares_after_tree raw_ok X d HX).
  rewrite (reduce_all_zero (lprod X) X Hz). reflexivity.
Qed.


(** X15.  On an empty input [product_tree] returns one level, records a level
    of no file and writes nothing; what follows indexes an empty vector:
    both remainder passes stop out of range, and so does [main]. *)
Theorem empty_input_run (w : world) (d : gmap (nat * nat) (list byte)) :
  product_tree [] w = (1, [], World (disk w) (filesPerFloor w ++ [0]))
  /\ remainders_squares 1 (snd (product_tree [] (initial_world d))) = Fault OutOfRange
  /\ remainders_squares_fast 1 (snd (product_tree [] (initial_world d)))
     = Fault OutOfRange
  /\ main [] d = Fault OutOfRange.
Proof.
  assert (Htree : forall w0, product_tree [] w0
                  = (1, [], World (disk w0) (filesPerFloor w0 ++ [0]))).
  { intros w0. rewrite product_tree_spec.
    rewrite (tree_levels_unfold_few []) by (simpl; lia). reflexivity. }
  split; [apply Htree |]. unfold main. rewrite !Htree.
  repeat split; reflexivity.
Qed.

End RemainderExtras.

(** ** The CSV reader *)

Lemma split_fields_nonempty (sep : ascii) (s : list ascii) :
  split_fields sep s ≠ [].
Proof.
  destruct s as [| c s]; cbn [split_fields]; [discriminate |].
  destruct (Ascii.eqb c sep); [discriminate |].
  destruct (split_fields sep s); discriminate.
Qed.

Lemma split_fields_clean (sep : ascii) (f : list ascii) :
  sep ∉ f -> split_fields sep f = [f].
Proof.
  induction f as [| c f IH]; intros Hsep; [reflexivity |].
  cbn [split_fields]. apply not_elem_of_cons in Hsep as [Hc Hf].
  destruct (Ascii.eqb_spec c sep) as [-> | _]; [contradiction |].
  rewrite (IH Hf). reflexivity.
Qed.

Lemma split_fields_app (sep : ascii) (f rest : list ascii) :
  sep ∉ f ->
  split_fields sep (f ++ sep :: rest) = f :: split_fields sep rest.
Proof.
  induction f as [| c f IH]; intros Hsep; cbn [app split_fields].
  - rewrite Ascii.eqb_refl. reflexivity.
  - apply not_elem_of_cons in Hsep as [Hc Hf].
    destruct (Ascii.eqb_spec c sep) as [-> | _]; [contradiction |].
    rewrite (IH Hf). reflexivity.
Qed.

(** Splitting a rendered row gives its fields back. *)
Lemma split_render_row (fields : list (list ascii)) :
  fields ≠ [] -> Forall (fun f => comma ∉ f) fields ->
  split_fields comma (render_row fields) = fields.
Proof.
  intros Hne Hclean. destruct fields as [| f fs]; [contradiction |]. clear Hne.
  revert f Hclean. induction fs as [| g fs IH]; intros f Hclean.
  - cbn [render_row map concat]. rewrite app_nil_r.
    apply split_fields_clean. exact (Forall_inv Hclean).
  - apply Forall_cons in Hclean as [Hf Hrest].
    change (render_row (f :: g :: fs)) with (f ++ comma :: render_row (g :: fs)).
    rewrite split_fields_app by assumption. rewrite (IH g Hrest). reflexivity.
Qed.

Lemma render_row_no_newline (fields : list (list ascii)) :
  Forall clean_field fields -> newline ∉ render_row fields.
Proof.
  intros Hclean. destruct fields as [| f fs]; [apply not_elem_of_nil |].
  revert f Hclean. induction fs as [| g fs IH]; intros f Hclean.
  - cbn [render_row map concat]. rewrite app_nil_r.
    exact (proj2 (Forall_inv Hclean)).
  - apply Forall_cons in Hclean as [[_ Hf] Hrest].
    change (render_row (f :: g :: fs)) with (f ++ comma :: render_row (g :: fs)).
    rewrite elem_of_app, elem_of_cons. intros [H | [H | H]].
    + contradiction.
    + discriminate H.
    + exact (IH g Hrest H).
Qed.

Lemma file_lines_app (line rest : list ascii) :
  newline ∉ line ->
  file_lines (line ++ newline :: rest) = line :: file_lines rest.
Proof.
  intros Hline. unfold file_lines; cbv zeta.
  rewrite split_fields_app by assumption.
  pose proof (split_fields_nonempty newline rest) as Hne.
  destruct (split_fields newline rest) as [| p ps]; [contradiction |].
  change (last (line :: p :: ps)) with (last (p :: ps)).
  destruct (last (p :: ps)) as [[| c q] |]; reflexivity.
Qed.

Lemma file_lines_render_rows (rows : list (list (list ascii))) (rest : list ascii) :
  Forall (Forall clean_field) rows ->
  file_lines (render_rows rows ++ rest) = map render_row rows ++ file_lines rest.
Proof.
  unfold render_rows. induction rows as [| r rows IH]; intros Hclean; [reflexivity |].
  apply Forall_cons in Hclean as [Hr Hrows].
  cbn [map concat]. rewrite <- !app_assoc. cbn [app].
  rewrite file_lines_app by (apply render_row_no_newline; assumption).
  rewrite (IH Hrows). reflexivity.
Qed.

Section CsvProperties.
Context {text : TextIO}.

Lemma read_rows_app (l1 l2 : list (list ascii)) (st : list Z * list Z) :
  read_rows (l1 ++ l2) st
  = match read_rows l1 st with
    | (st', None) => read_rows l2 st'
    | r => r
    end.
Proof.
  revert st. induction l1 as [| line l1 IH]; intros st; cbn [app read_rows].
  - destruct st; reflexivity.
  - destruct (read_row line st) as [st' | e]; [apply IH | destruct st; reflexivity].
Qed.

(** The loop keeps the two vectors in step, whatever the lines hold. *)
Lemma read_rows_parallel (lines : list (list ascii)) (moduli IDs : list Z) :
  exists ms ids,
    fst (read_rows lines (moduli, IDs)) = (moduli ++ ms, IDs ++ ids)
    /\ length ms = length ids
    /\ length ms <= length lines
    /\ (snd (read_rows lines (moduli, IDs)) = None -> length ms = length lines).
Proof.
  revert moduli IDs. induction lines as [| line lines IH]; intros moduli IDs.
  - exists [], []. cbn. rewrite !app_nil_r. auto.
  - cbn [read_rows]. unfold read_row; cbv zeta. cbn [fst snd].
    destruct (split_fields comma line !! 2) as [f2 |];
      [| exists [], []; cbn; rewrite !app_nil_r; repeat split; (lia || discriminate)].
    destruct (mpz_of_string f2) as [n |];
      [| exists [], []; cbn; rewrite !app_nil_r; repeat split; (lia || discriminate)].
    destruct (split_fields comma line !! 0) as [f0 |];
      [| exists [], []; cbn; rewrite !app_nil_r; repeat split; (lia || discriminate)].
    destruct (stoi f0) as [id |];
      [| exists [], []; cbn; rewrite !app_nil_r; repeat split; (lia || discriminate)].
    destruct (IH (moduli ++ [n]) (IDs ++ [id])) as (ms & ids & Hst & Hlen & Hle & Hall).
    exists (n :: ms), (id :: ids). rewrite Hst, <- !app_assoc. cbn [app length].
    repeat split; try lia. intros Hnone. rewrite (Hall Hnone). reflexivity.
Qed.

(** X17.  [read_moduli_from_csv] appends to the two vectors and keeps them in
    step: whatever the file holds and however the loop ends, the vectors it
    leaves are the ones it was given followed by equally many new moduli and
    new IDs, at most one pair per line of the file and exactly one per line
    when the loop reaches the end of the file; a file that cannot be opened
    adds nothing and is not reported. *)
Theorem read_moduli_from_csv_parallel (file : option (list ascii))
    (moduli IDs : list Z) :
  exists ms ids,
    fst (read_moduli_from_csv file moduli IDs) = (moduli ++ ms, IDs ++ ids)
    /\ length ms = length ids
    /\ (file = None ->
        ms = [] /\ snd (read_moduli_from_csv file moduli IDs) = None)
    /\ (forall s, file = Some s ->
          length ms <= length (file_lines s)
          /\ (snd (read_moduli_from_csv file moduli IDs) = None ->
              length ms = length (file_lines s))).
Proof.
  destruct file as [s |]; cbn [read_moduli_from_csv].
  - destruct (read_rows_parallel (file_lines s) moduli IDs)
      as (ms & ids & Hst & Hlen & Hle & Hall).
    exists ms, ids. split; [exact Hst |]. split; [exact Hlen |].
    split; [discriminate |]. intros s' E. injection E as <-. auto.
  - exists [], []. cbn. rewrite !app_nil_r. split; [reflexivity |].
    split; [reflexivity |]. split; [auto | discriminate].
Qed.

(** A row of clean fields whose third field converts to [n] and whose first
    field converts to [id]. *)
Lemma read_row_good (row : list (list ascii)) (f0 f2 : list ascii) (n id : Z)
    (st : list Z * list Z) :
  Forall clean_field row ->
  row !! 2 = Some f2 -> mpz_of_string f2 = Some n ->
  row !! 0 = Some f0 -> stoi f0 = Some id ->
  read_row (render_row row) st = inl (fst st ++ [n], snd st ++ [id]).
Proof.
  intros Hclean H2 Hn H0 Hid. unfold read_row; cbv zeta.
  rewrite split_render_row;
    [| intros ->; discriminate
     | eapply Forall_impl; [exact Hclean | intros f [Hf _]; exact Hf]].
  rewrite H2, Hn, H0, Hid. reflexivity.
Qed.

Lemma read_rows_good (rows : list (list (list ascii))) (ns ids : list Z)
    (moduli IDs : list Z) :
  Forall (Forall clean_field) rows ->
  Forall2 (fun row n => exists f2, row !! 2 = Some f2 /\ mpz_of_string f2 = Some n)
    rows ns ->
  Forall2 (fun row id => exists f0, row !! 0 = Some f0 /\ stoi f0 = Some id)
    rows ids ->
  read_rows (map render_row rows) (moduli, IDs) = (moduli ++ ns, IDs ++ ids, None).
Proof.
  intros Hclean Hns. revert ids moduli IDs Hclean.
  induction Hns as [| row n rows ns (f2 & H2 & Hn) _ IH];
    intros ids moduli IDs Hclean Hids.
  - apply Forall2_nil_inv_l in Hids as ->. cbn. rewrite !app_nil_r. reflexivity.
  - apply Forall2_cons_inv_l in Hids as (id & ids' & (f0 & H0 & Hid) & Hids & ->).
    apply Forall_cons in Hclean as [Hrow Hrows].
    cbn [map read_rows].
    rewrite (read_row_good row f0 f2 n id _ Hrow H2 Hn H0 Hid). cbn [fst snd].
    rewrite (IH ids' _ _ Hrows Hids), <- !app_assoc. reflexivity.
Qed.

(** X18.  A file of rows of at least three comma-separated fields, each row
    ended by a newline, whose third fields convert to the moduli [ns] and
    whose first fields convert to the identifiers [ids], is read in full:
    the moduli and the identifiers are appended in the order of the rows.
    The second field and the fields after the third are not looked at. *)
Theorem read_moduli_from_csv_well_formed (rows : list (list (list ascii)))
    (ns ids : list Z) (moduli IDs : list Z) :
  Forall (Forall clean_field) rows ->
  Forall2 (fun row n => exists f2, row !! 2 = Some f2 /\ mpz_of_string f2 = Some n)
    rows ns ->
  Forall2 (fun row id => exists f0, row !! 0 = Some f0 /\ stoi f0 = Some id)
    rows ids ->
  read_moduli_from_csv (Some (render_rows rows)) moduli IDs
  = (moduli ++ ns, IDs ++ ids, None).
Proof.
  intros Hclean Hns Hids. cbn [read_moduli_from_csv].
  rewrite <- (app_nil_r (render_rows rows)).
  rewrite (file_lines_render_rows rows [] Hclean).
  change (file_lines []) with (@nil (list ascii)). rewrite app_nil_r.
  exact (read_rows_good rows ns ids moduli IDs Hclean Hns Hids).
Qed.

(** X19.  The loop stops at the first row it cannot take and reads nothing
    after it: after good rows, a row of fewer than three fields (a blank line
    among them) makes [vec[2]] an access past the end; otherwise a third field
    that does not convert stops the loop before the first field is looked at;
    otherwise a first field that does not convert stops it.  The vectors hold
    the pairs of the rows before, and nothing of the row that failed. *)
Theorem read_moduli_from_csv_stops_at_bad_row (rows : list (list (list ascii)))
    (ns ids : list Z) (bad : list (list ascii)) (rest : list ascii)
    (e : csv_stop) (moduli IDs : list Z) :
  Forall (Forall clean_field) rows ->
  Forall2 (fun row n => exists f2, row !! 2 = Some f2 /\ mpz_of_string f2 = Some n)
    rows ns ->
  Forall2 (fun row id => exists f0, row !! 0 = Some f0 /\ stoi f0 = Some id)
    rows ids ->
  bad ≠ [] -> Forall clean_field bad ->
  (length bad < 3 /\ e = ShortRow)
  \/ (exists f2, bad !! 2 = Some f2 /\ mpz_of_string f2 = None /\ e = BadModulus)
  \/ (exists f2 n f0, bad !! 2 = Some f2 /\ mpz_of_string f2 = Some n
        /\ bad !! 0 = Some f0 /\ stoi f0 = None /\ e = BadId) ->
  read_moduli_from_csv
    (Some (render_rows rows ++ render_row bad ++ newline :: rest)) moduli IDs
  = (moduli ++ ns, IDs ++ ids, Some e).
Proof.
  intros Hclean Hns Hids Hne Hbadclean Hbad. cbn [read_moduli_from_csv].
  rewrite (file_lines_render_rows rows _ Hclean).
  rewrite file_lines_app by (apply render_row_no_newline; assumption).
  rewrite read_rows_app, (read_rows_good rows ns ids moduli IDs Hclean Hns Hids).
  cbn [read_rows]. unfold read_row; cbv zeta.
  rewrite split_render_row;
    [| assumption
     | eapply Forall_impl; [exact Hbadclean | intros f [Hf _]; exact Hf]].
  destruct Hbad as [[Hshort ->] | [(f2 & H2 & Hn & ->) | (f2 & n & f0 & H2 & Hn & H0 & Hid & ->)]].
  - rewrite (lookup_ge_None_2 bad 2) by lia. reflexivity.
  - rewrite H2, Hn. reflexivity.
  - rewrite H2, Hn, H0, Hid. reflexivity.
Qed.

End CsvProperties.

(** ** A single modulus *)

Lemma rem_own_square (n : Z) :
  n ≠ 0%Z -> rem_square n n = if decide (Z.abs n = 1%Z) then 0%Z else n.
Proof.
  intros Hn. unfold rem_square. case_decide as Habs.
  - replace (Z.mul n n) with 1%Z by nia. apply Z.rem_1_r.
  - destruct (Z.lt_ge_cases 0 n) as [Hpos | Hneg].
    + apply Z.rem_small. nia.
    + pose proof (Z.rem_opp_l (- n) (Z.mul n n) ltac:(nia)) as Hopp.
      rewrite Z.opp_involutive in Hopp. rewrite Hopp.
      rewrite Z.rem_small by nia. lia.
Qed.

Section SingleModulus.
Context {io : RawIO}.
Hypothesis raw_ok : raw_round_trip io.

(** X16.  On a single non-zero modulus [n] the vector of moduli is not
    emptied and the final loop of [main] does run: part (B) leaves [n] itself
    (0 when [n] is 1 or -1), the final loop turns it into 1, and nothing is
    counted as compromised. *)
Theorem main_one_modulus (n : Z) (d : gmap (nat * nat) (list byte)) :
  n ≠ 0%Z ->
  main [n] d = Ok ([if decide (Z.abs n = 1%Z) then 0%Z else n], [1%Z], 0).
Proof.
  intros Hn. rewrite (main_single_modulus raw_ok n d Hn).
  rewrite (rem_own_square n Hn). reflexivity.
Qed.

End SingleModulus.

(** ** Runs on concrete inputs *)

Local Ltac clean_fields :=
  repeat first
    [ apply Forall_nil_2
    | apply Forall_cons_2
    | split
    | let H := fresh in
      intros H;
      repeat (apply elem_of_cons in H as [H | H]; [discriminate H |]);
      inversion H ].

(** Five moduli give four levels. *)
Lemma product_tree_level_count_witness :
  [6; 10; 15; 7; 11]%Z ≠ []
  /\ fst (fst (product_tree (io := sign_magnitude_io) [6; 10; 15; 7; 11]%Z
                 (initial_world ∅)))
     = S (Nat.log2_up (length [6; 10; 15; 7; 11]%Z)).
Proof.
  assert (Hne : [6; 10; 15; 7; 11]%Z ≠ []) by discriminate.
  split; [exact Hne |].
  exact (product_tree_level_count (io := sign_magnitude_io) [6; 10; 15; 7; 11]%Z
           (initial_world ∅) Hne).
Defined.

(** The leaves 6, 10 and 15 are on disk after the tree is built. *)
Lemma product_tree_keeps_leaves_witness :
  raw_round_trip sign_magnitude_io
  /\ [6; 10; 15]%Z ≠ []
  /\ read_level_from_file (io := sign_magnitude_io) 0
       (snd (product_tree (io := sign_magnitude_io) [6; 10; 15]%Z (initial_world ∅)))
     = Ok [6; 10; 15]%Z.
Proof.
  assert (Hne : [6; 10; 15]%Z ≠ []) by discriminate.
  split; [exact sign_magnitude_round_trip |]. split; [exact Hne |].
  exact (product_tree_keeps_leaves sign_magnitude_round_trip [6; 10; 15]%Z ∅ Hne).
Defined.

(** Level 1 of the tree of 6, 10 and 15. *)
Lemma product_tree_nodes_witness :
  raw_round_trip sign_magnitude_io
  /\ [6; 10; 15]%Z ≠ []
  /\ 1 < fst (fst (product_tree (io := sign_magnitude_io) [6; 10; 15]%Z (initial_world ∅)))
  /\ exists L,
       read_level_from_file (io := sign_magnitude_io) 1
         (snd (product_tree (io := sign_magnitude_io) [6; 10; 15]%Z (initial_world ∅)))
       = Ok L
       /\ length L = (length [6; 10; 15]%Z + 2 ^ 1 - 1) / 2 ^ 1
       /\ (forall i y, L !! i = Some y ->
             y = lprod (take (2 ^ 1) (drop (i * 2 ^ 1) [6; 10; 15]%Z)))
       /\ lprod L = lprod [6; 10; 15]%Z.
Proof.
  assert (Hne : [6; 10; 15]%Z ≠ []) by discriminate.
  assert (Hlev : 1 < fst (fst (product_tree (io := sign_magnitude_io)
                                 [6; 10; 15]%Z (initial_world ∅))))
    by (vm_compute; lia).
  split; [exact sign_magnitude_round_trip |]. split; [exact Hne |].
  split; [exact Hlev |].
  exact (product_tree_nodes sign_magnitude_round_trip [6; 10; 15]%Z ∅ 1 Hne Hlev).
Defined.

(** File 0 of level 1 of the tree of 6, 10 and 15 holds 6 * 10. *)
Lemma product_tree_files_witness :
  raw_round_trip sign_magnitude_io
  /\ (1 < fst (fst (product_tree (io := sign_magnitude_io) [6; 10; 15]%Z (initial_world ∅)))
      /\ 0 < (length [6; 10; 15]%Z + 2 ^ 1 - 1) / 2 ^ 1)
  /\ read_variable_from_file (io := sign_magnitude_io) 1 0
       (snd (product_tree (io := sign_magnitude_io) [6; 10; 15]%Z (initial_world ∅)))
     = Ok (lprod (take (2 ^ 1) (drop (0 * 2 ^ 1) [6; 10; 15]%Z))).
Proof.
  assert (Hin : 1 < fst (fst (product_tree (io := sign_magnitude_io)
                                [6; 10; 15]%Z (initial_world ∅)))
                /\ 0 < (length [6; 10; 15]%Z + 2 ^ 1 - 1) / 2 ^ 1)
    by (vm_compute; lia).
  split; [exact sign_magnitude_round_trip |]. split; [exact Hin |].
  exact (proj1 (product_tree_files sign_magnitude_round_trip [6; 10; 15]%Z
                  (initial_world ∅) 1 0) Hin).
Defined.

(** Writing the level [5; 7] as level 0. *)
Lemma write_level_to_file_effect_witness :
  raw_round_trip sign_magnitude_io
  /\ filesPerFloor (write_level_to_file (io := sign_magnitude_io) 0 [5; 7]%Z (World ∅ [2]))
     = filesPerFloor (World ∅ [2])
  /\ (forall i x, [5; 7]%Z !! i = Some x ->
        read_variable_from_file (io := sign_magnitude_io) 0 i
          (write_level_to_file (io := sign_magnitude_io) 0 [5; 7]%Z (World ∅ [2]))
        = Ok x).
Proof.
  split; [exact sign_magnitude_round_trip |].
  split.
  - exact (proj1 (write_level_to_file_effect sign_magnitude_round_trip 0 [5; 7]%Z
                    (World ∅ [2]))).
  - exact (proj1 (proj2 (write_level_to_file_effect sign_magnitude_round_trip 0
                           [5; 7]%Z (World ∅ [2])))).
Defined.

(** The final loop on the moduli 15 and 77 and a longer vector. *)
Lemma final_gcds_effect_witness :
  Forall (fun m => m ≠ 0%Z) [15; 77]%Z
  /\ length [15; 77]%Z <= length [30; 1155; 9]%Z
  /\ exists R',
       final_gcds [15; 77]%Z [30; 1155; 9]%Z = Ok R'
       /\ length R' = length [30; 1155; 9]%Z
       /\ (forall i m r, [15; 77]%Z !! i = Some m -> [30; 1155; 9]%Z !! i = Some r ->
             R' !! i = Some (Z.gcd (Z.quot r m) m)
             /\ (Z.gcd (Z.quot r m) m | m)%Z
             /\ (0 <= Z.gcd (Z.quot r m) m)%Z)
       /\ (forall i, length [15; 77]%Z <= i -> R' !! i = [30; 1155; 9]%Z !! i).
Proof.
  assert (Hnz : Forall (fun m => m ≠ 0%Z) [15; 77]%Z) by (repeat constructor; lia).
  assert (Hlen : length [15; 77]%Z <= length [30; 1155; 9]%Z) by (simpl; lia).
  split; [exact Hnz |]. split; [exact Hlen |].
  exact (proj1 (final_gcds_effect [15; 77]%Z [30; 1155; 9]%Z Hnz) Hlen).
Defined.

(** The final loop on the moduli 15, 21 and 77 themselves. *)
Lemma final_gcds_finds_shared_factors_witness :
  Forall (fun n => n ≠ 0%Z) [15; 21; 77]%Z
  /\ exists R,
       final_gcds [15; 21; 77]%Z
         (map (rem_square (lprod [15; 21; 77]%Z)) [15; 21; 77]%Z) = Ok R
       /\ length R = length [15; 21; 77]%Z
       /\ (forall i n, [15; 21; 77]%Z !! i = Some n ->
             R !! i = Some (Z.gcd n (lprod (delete i [15; 21; 77]%Z)))
             /\ (Z.gcd n (lprod (delete i [15; 21; 77]%Z)) | n)%Z
             /\ (Z.gcd n (lprod (delete i [15; 21; 77]%Z))
                 | lprod (delete i [15; 21; 77]%Z))%Z)
       /\ compromised R = length (filter (fun g => g ≠ 1%Z) R).
Proof.
  assert (Hnz : Forall (fun n => n ≠ 0%Z) [15; 21; 77]%Z)
    by (repeat constructor; lia).
  split; [exact Hnz |].
  exact (final_gcds_finds_shared_factors [15; 21; 77]%Z Hnz).
Defined.

(** The single-pass remainders of 15, 21 and 77. *)
Lemma remainders_squares_multiples_witness :
  raw_round_trip sign_magnitude_io
  /\ [15; 21; 77]%Z ≠ []
  /\ Forall (fun n => n ≠ 0%Z) [15; 21; 77]%Z
  /\ exists R,
       remainders_squares (io := sign_magnitude_io)
         (fst (fst (product_tree (io := sign_magnitude_io) [15; 21; 77]%Z (initial_world ∅))))
         (snd (product_tree (io := sign_magnitude_io) [15; 21; 77]%Z (initial_world ∅)))
       = Ok R
       /\ forall i n, [15; 21; 77]%Z !! i = Some n ->
            exists r, R !! i = Some r
              /\ r = Z.mul n (Z.rem (lprod (delete i [15; 21; 77]%Z)) n)
              /\ (n | r)%Z
              /\ Z.quot r n = Z.rem (lprod (delete i [15; 21; 77]%Z)) n
              /\ (Z.abs r < Z.mul n n)%Z.
Proof.
  assert (Hne : [15; 21; 77]%Z ≠ []) by discriminate.
  assert (Hnz : Forall (fun n => n ≠ 0%Z) [15; 21; 77]%Z)
    by (repeat constructor; lia).
  split; [exact sign_magnitude_round_trip |]. split; [exact Hne |].
  split; [exact Hnz |].
  exact (remainders_squares_multiples sign_magnitude_round_trip [15; 21; 77]%Z ∅
           Hne Hnz).
Defined.

(** The fast remainders of 15, 21 and 77. *)
Lemma remainders_squares_fast_spec_witness :
  raw_round_trip sign_magnitude_io
  /\ 2 <= length [15; 21; 77]%Z
  /\ Forall (fun n => n ≠ 0%Z) [15; 21; 77]%Z
  /\ exists R,
       remainders_squares_fast (io := sign_magnitude_io)
         (fst (fst (product_tree (io := sign_magnitude_io) [15; 21; 77]%Z (initial_world ∅))))
         (snd (product_tree (io := sign_magnitude_io) [15; 21; 77]%Z (initial_world ∅)))
       = Ok R
       /\ length R = length [15; 21; 77]%Z
       /\ forall i n, [15; 21; 77]%Z !! i = Some n ->
            R !! i = Some (Z.rem (lprod [15; 21; 77]%Z) (Z.mul n n)).
Proof.
  assert (Hlen : 2 <= length [15; 21; 77]%Z) by (simpl; lia).
  assert (Hnz : Forall (fun n => n ≠ 0%Z) [15; 21; 77]%Z)
    by (repeat constructor; lia).
  split; [exact sign_magnitude_round_trip |]. split; [exact Hlen |].
  split; [exact Hnz |].
  exact (remainders_squares_fast_spec sign_magnitude_round_trip [15; 21; 77]%Z ∅
           Hlen Hnz).
Defined.

(** The step of the descent from level 1 to level 0 on 15, 21 and 77. *)
Lemma partial_remainders_invariant_witness :
  raw_round_trip sign_magnitude_io
  /\ Forall (fun n => n ≠ 0%Z) [15; 21; 77]%Z
  /\ 1 < fst (fst (product_tree (io := sign_magnitude_io) [15; 21; 77]%Z (initial_world ∅)))
  /\ exists L Lup,
       read_level_from_file (io := sign_magnitude_io) 0
         (snd (product_tree (io := sign_magnitude_io) [15; 21; 77]%Z (initial_world ∅)))
       = Ok L
       /\ read_level_from_file (io := sign_magnitude_io) 1
            (snd (product_tree (io := sign_magnitude_io) [15; 21; 77]%Z (initial_world ∅)))
          = Ok Lup
       /\ partial_remainders (io := sign_magnitude_io) 0
            (map (rem_square (lprod [15; 21; 77]%Z)) Lup)
            (snd (product_tree (io := sign_magnitude_io) [15; 21; 77]%Z (initial_world ∅)))
          = Ok (map (rem_square (lprod [15; 21; 77]%Z)) L).
Proof.
  assert (Hnz : Forall (fun n => n ≠ 0%Z) [15; 21; 77]%Z)
    by (repeat constructor; lia).
  assert (Hlev : 1 < fst (fst (product_tree (io := sign_magnitude_io)
                                 [15; 21; 77]%Z (initial_world ∅))))
    by (vm_compute; lia).
  split; [exact sign_magnitude_round_trip |]. split; [exact Hnz |].
  split; [exact Hlev |].
  destruct (partial_remainders_invariant sign_magnitude_round_trip [15; 21; 77]%Z ∅ 0
              Hnz Hlev) as (L & Lup & HL & HLup & Hstep & _).
  exists L, Lup. split; [exact HL |]. split; [exact HLup | exact Hstep].
Defined.

(** A zero among the moduli 15, 0 and 77. *)
Lemma main_zero_modulus_witness :
  raw_round_trip sign_magnitude_io
  /\ [15; 0; 77]%Z ≠ []
  /\ Exists (fun n => n = 0%Z) [15; 0; 77]%Z
  /\ main (io := sign_magnitude_io) [15; 0; 77]%Z ∅ = Fault DivisionByZero.
Proof.
  assert (Hne : [15; 0; 77]%Z ≠ []) by discriminate.
  assert (Hz : Exists (fun n => n = 0%Z) [15; 0; 77]%Z)
    by (apply Exists_cons_tl, Exists_cons_hd; reflexivity).
  split; [exact sign_magnitude_round_trip |]. split; [exact Hne |].
  split; [exact Hz |].
  exact (main_zero_modulus sign_magnitude_round_trip [15; 0; 77]%Z ∅ Hne Hz).
Defined.


(** The run of [main] on the single modulus 15. *)
Lemma main_one_modulus_witness :
  raw_round_trip sign_magnitude_io
  /\ (15 ≠ 0)%Z
  /\ main (io := sign_magnitude_io) [15%Z] ∅
     = Ok ([if decide (Z.abs 15 = 1%Z) then 0%Z else 15%Z], [1%Z], 0).
Proof.
  assert (Hn : (15 ≠ 0)%Z) by lia.
  split; [exact sign_magnitude_round_trip |]. split; [exact Hn |].
  exact (main_one_modulus sign_magnitude_round_trip 15%Z ∅ Hn).
Defined.

(** A file of two rows, the second with an empty second field and a fourth
    field. *)
Lemma read_moduli_from_csv_well_formed_witness :
  Forall (Forall clean_field)
    [ [["7"]; ["x"]; ["1"; "5"]]; [["8"]; []; ["7"; "7"]; ["k"]] ]%char
  /\ Forall2 (fun row n => exists f2, row !! 2 = Some f2
                /\ mpz_of_string (TextIO := decimal_text) f2 = Some n)
       [ [["7"]; ["x"]; ["1"; "5"]]; [["8"]; []; ["7"; "7"]; ["k"]] ]%char
       [15; 77]%Z
  /\ Forall2 (fun row id => exists f0, row !! 0 = Some f0
                /\ stoi (TextIO := decimal_text) f0 = Some id)
       [ [["7"]; ["x"]; ["1"; "5"]]; [["8"]; []; ["7"; "7"]; ["k"]] ]%char
       [7; 8]%Z
  /\ read_moduli_from_csv (text := decimal_text)
       (Some (render_rows
          [ [["7"]; ["x"]; ["1"; "5"]]; [["8"]; []; ["7"; "7"]; ["k"]] ]%char))
       [] []
     = ([] ++ [15; 77]%Z, [] ++ [7; 8]%Z, None).
Proof.
  assert (Hclean : Forall (Forall clean_field)
            [ [["7"]; ["x"]; ["1"; "5"]]; [["8"]; []; ["7"; "7"]; ["k"]] ]%char)
    by clean_fields.
  assert (Hns : Forall2 (fun row n => exists f2, row !! 2 = Some f2
                           /\ mpz_of_string (TextIO := decimal_text) f2 = Some n)
            [ [["7"]; ["x"]; ["1"; "5"]]; [["8"]; []; ["7"; "7"]; ["k"]] ]%char
            [15; 77]%Z)
    by (repeat (constructor; [eexists; split; reflexivity |]); constructor).
  assert (Hids : Forall2 (fun row id => exists f0, row !! 0 = Some f0
                            /\ stoi (TextIO := decimal_text) f0 = Some id)
            [ [["7"]; ["x"]; ["1"; "5"]]; [["8"]; []; ["7"; "7"]; ["k"]] ]%char
            [7; 8]%Z)
    by (repeat (constructor; [eexists; split; reflexivity |]); constructor).
  split; [exact Hclean |]. split; [exact Hns |]. split; [exact Hids |].
  exact (read_moduli_from_csv_well_formed (text := decimal_text) _ _ _ [] []
           Hclean Hns Hids).
Defined.

(** A good row, a blank line, and a row that is never read. *)
Lemma read_moduli_from_csv_stops_at_bad_row_witness :
  Forall (Forall clean_field) [ [["7"]; ["x"]; ["1"; "5"]] ]%char
  /\ Forall2 (fun row n => exists f2, row !! 2 = Some f2
                /\ mpz_of_string (TextIO := decimal_text) f2 = Some n)
       [ [["7"]; ["x"]; ["1"; "5"]] ]%char [15%Z]
  /\ Forall2 (fun row id => exists f0, row !! 0 = Some f0
                /\ stoi (TextIO := decimal_text) f0 = Some id)
       [ [["7"]; ["x"]; ["1"; "5"]] ]%char [7%Z]
  /\ Forall clean_field [[]]
  /\ length [@nil ascii] < 3
  /\ read_moduli_from_csv (text := decimal_text)
       (Some (render_rows [ [["7"]; ["x"]; ["1"; "5"]] ]%char
              ++ render_row [[]]
              ++ newline :: ["8"; ","; "y"; ","; "7"; "7"; newline]%char))
       [] []
     = ([] ++ [15%Z], [] ++ [7%Z], Some ShortRow).
Proof.
  assert (Hclean : Forall (Forall clean_field) [ [["7"]; ["x"]; ["1"; "5"]] ]%char)
    by clean_fields.
  assert (Hns : Forall2 (fun row n => exists f2, row !! 2 = Some f2
                           /\ mpz_of_string (TextIO := decimal_text) f2 = Some n)
            [ [["7"]; ["x"]; ["1"; "5"]] ]%char [15%Z])
    by (repeat (constructor; [eexists; split; reflexivity |]); constructor).
  assert (Hids : Forall2 (fun row id => exists f0, row !! 0 = Some f0
                            /\ stoi (TextIO := decimal_text) f0 = Some id)
            [ [["7"]; ["x"]; ["1"; "5"]] ]%char [7%Z])
    by (repeat (constructor; [eexists; split; reflexivity |]); constructor).
  assert (Hbad : Forall clean_field [[]]) by clean_fields.
  assert (Hshort : length [@nil ascii] < 3) by (simpl; lia).
  split; [exact Hclean |]. split; [exact Hns |]. split; [exact Hids |].
  split; [exact Hbad |]. split; [exact Hshort |].
  exact (read_moduli_from_csv_stops_at_bad_row (text := decimal_text) _ _ _ [[]] _
           ShortRow [] [] Hclean Hns Hids ltac:(discriminate) Hbad
           (or_introl (conj Hshort eq_refl))).
Defined.
